(** * Runtime CPU dispatch of the vector class library (easy_dispatch.h)

    A shallow embedding of the selection templates [vcl_select], of the
    dispatcher [vcl_dispatch] and of the forwarding wrapper generated by
    [VCL_DISPATCH], followed by the properties of the selection and of the
    dispatch slot [vcl_<fun>_ptr]. *)

From Stdlib Require Import ZArith Lia String.
From stdpp Require Import base option list sorting strings pretty.

(** ** Function pointers and variant lists *)

Section Selection.
Context {EntryPoint : Type}.

(** A value of type [T *] that can be passed as a template argument [f] or
    [fs ...]: the null pointer, or the address of one of the compiled
    implementations [vcl_<fun>_<n>].  The instantiation of [vcl_dispatch]
    that owns the pack cannot occur in its own pack. *)
Inductive fptr : Type :=
| nullptr
| fn (e : EntryPoint).

(** The contextual conversion of a pointer to [bool], as in [if (g)]. *)
Definition to_bool (g : fptr) : bool :=
  match g with
  | nullptr => false
  | fn _ => true
  end.

(** The two overloads of [vcl_select].  The packs [is ...] and [fs ...] are
    given as one list of pairs: both are expanded from [VCL_INSTRSETS], and
    an instantiation with packs of different lengths, or with empty packs,
    matches no overload.  [i] and [f] are the heads of the packs.  The levels
    are C [int]s that are only compared, never computed with, so they are
    kept as integers of [Z].

    - [rest = []] is the first overload: [return f].
    - otherwise the second overload recurses on the tails first, returns a
      non-null result of the recursion, and only then looks at [i <= n]. *)
Fixpoint vcl_select (n : Z) (i : Z) (f : fptr) (rest : list (Z * fptr)) : fptr :=
  match rest with
  | [] => f
  | (i', f') :: rest' =>
      let g := vcl_select n i' f' rest' in
      if to_bool g then g
      else if (i <=? n)%Z then f
      else nullptr
  end.

(** A variant list: the instruction-set levels of [VCL_INSTRSETS], each with
    the implementation compiled for it. *)
Definition VariantList : Type := list (Z * EntryPoint).

(** [VCL_FUNLIST]: the names [vcl_<fun>_<n>] of the implementations, which
    decay to their (non-null) addresses, next to their levels. *)
Definition VCL_FUNLIST (V : VariantList) : list (Z * fptr) :=
  (λ x, (x.1, fn x.2)) <$> V.

(** The call [vcl_select<T, fs ...>(n, Instrsets())] of the dispatcher, for
    the variant list [v :: vs]. *)
Definition select (n : Z) (v : Z * EntryPoint) (vs : VariantList) : fptr :=
  vcl_select n v.1 (fn v.2) (VCL_FUNLIST vs).

(** Levels strictly ascending, as [VCL_INSTRSETS] has to be written. *)
Fixpoint ascending (l : list Z) : bool :=
  match l with
  | [] => true
  | i :: r =>
      match r with
      | [] => true
      | j :: _ => (i <? j)%Z && ascending r
      end
  end.

Definition ascending_variants (V : VariantList) : bool := ascending (V.*1).

(** The level under which a pointer is listed in [V] (the first one, should
    an implementation be listed twice). *)
Definition level_of `{!EqDecision EntryPoint} (p : fptr) (V : VariantList) : option Z :=
  match p with
  | nullptr => None
  | fn e => fst <$> List.find (λ x, bool_decide (x.2 = e)) V
  end.

(** An entry of a pack that the second overload passes over when the
    recursion has returned null: its level is above [n], or its pointer is
    null. *)
Definition skipped (n : Z) (x : Z * fptr) : Prop :=
  (n < x.1)%Z ∨ x.2 = nullptr.

(** The selection as the specification words it: walk [V] from the highest
    tier to the lowest, take the first entry whose level is [<= n], and fall
    back to the lowest-tier entry when no entry qualifies. *)
Definition spec_select (n : Z) (V : VariantList) : option EntryPoint :=
  match List.find (λ x, (x.1 <=? n)%Z) (reverse V) with
  | Some x => Some x.2
  | None => snd <$> head V
  end.

End Selection.

Arguments fptr : clear implicits.
Arguments VariantList : clear implicits.

(** ** The dispatcher and the dispatch slot *)

(** The exception class of easy_dispatch.cpp and its [what()]. *)
Inductive vcl_dispatch_exception : Type :=
| dispatch_exception.

Definition what (x : vcl_dispatch_exception) : string :=
  "Processor does not support least required instruction set".

Section Dispatcher.
Context {EntryPoint : Type}.

(** The value returned by [instrset_detect()] (instrset_detect.cpp): the
    level of the host, the same at every call within one process. *)
Variable instrset_detect : Z.

(** The variant list [v :: vs] the dispatcher is instantiated with:
    [std::integer_sequence<int, VCL_INSTRSETS>] and [VCL_FUNLIST]. *)
Variable v : Z * EntryPoint.
Variable vs : VariantList EntryPoint.

(** The name [f] of the forwarding call [return f(std::forward<A>(a) ...)] of
    [vcl_dispatch].  No template parameter, local or declaration of the header
    binds it, so it is a parameter here: the function that the name resolves
    to where the template is instantiated, or the null pointer. *)
Variable f : fptr EntryPoint.

(** A value of the slot [vcl_<fun>_ptr]: the instantiation of [vcl_dispatch]
    it is initialised with, or a pointer assigned by that dispatcher. *)
Inductive slot_value : Type :=
| dispatcher
| resolved (g : fptr EntryPoint).

(** What an execution does, in order: an instrumentation of the calls of
    [instrset_detect] and [vcl_select], of the assignment to the slot, of the
    entry into a function by the call of the wrapper through the slot
    ([Invoke]) and by the forwarding call of the dispatcher ([Forward]). *)
Inductive event : Type :=
| Detect (n : Z)
| Select (g : fptr EntryPoint)
| Store (g : fptr EntryPoint)
| Invoke (e : EntryPoint)
| Forward (e : EntryPoint).

(** How a call of the logical function ends: the function [e] ran and
    its result was returned, an exception left the call, or the call went
    through a null pointer.  [vcl_dispatch_exception] is the only exception
    class of the sources. *)
Inductive outcome : Type :=
| Returned (e : EntryPoint)
| Raised (x : vcl_dispatch_exception)
| Undefined.

(** One process, as far as one logical function is concerned: its slot and
    what has happened so far. *)
Record process : Type := Process {
  vcl_fun_ptr : slot_value;
  trace : list event
}.

Definition emit (evs : list event) (σ : process) : process :=
  {| vcl_fun_ptr := vcl_fun_ptr σ; trace := trace σ ++ evs |}.

(** [VCL_DISPATCHER_IMPLEMENTATION_]:
    [decltype(fun) * vcl_fun_ptr = vcl_dispatch<...>]. *)
Definition VCL_DISPATCHER_IMPLEMENTATION : process :=
  {| vcl_fun_ptr := dispatcher; trace := [] |}.

(** The indirect call [vcl_fun_ptr(args ...)] of the wrapper, through the
    pointer [g] read from the slot. *)
Definition call (g : fptr EntryPoint) (σ : process) : outcome * process :=
  match g with
  | fn e => (Returned e, emit [Invoke e] σ)
  | nullptr => (Undefined, σ)
  end.

(** The forwarding call [f(std::forward<A>(a) ...)] of the dispatcher. *)
Definition forward (σ : process) : outcome * process :=
  match f with
  | fn e => (Returned e, emit [Forward e] σ)
  | nullptr => (Undefined, σ)
  end.

(** [vcl_dispatch]: [ptr = vcl_select<T, fs ...>(instrset_detect(), Instrsets())]
    and then [return f(std::forward<A>(a) ...)].  The call goes to [f], not to
    the pointer just assigned.  The body has no [throw]. *)
Definition vcl_dispatch (σ : process) : outcome * process :=
  let n := instrset_detect in
  let g := select n v vs in
  let σ' := {| vcl_fun_ptr := resolved g;
               trace := trace σ ++ [Detect n; Select g; Store g] |} in
  forward σ'.

(** The wrapper written with [VCL_DISPATCH]: [return vcl_fun_ptr(args ...)]. *)
Definition VCL_DISPATCH (σ : process) : outcome * process :=
  match vcl_fun_ptr σ with
  | dispatcher => vcl_dispatch σ
  | resolved g => call g σ
  end.

(** [k] calls of the logical function, one after the other. *)
Fixpoint calls (k : nat) (σ : process) : list outcome * process :=
  match k with
  | O => ([], σ)
  | S k' =>
      let (o, σ') := VCL_DISPATCH σ in
      let (os, σ'') := calls k' σ' in
      (o :: os, σ'')
  end.

Definition is_Select (ev : event) : bool :=
  match ev with
  | Select _ => true
  | _ => false
  end.

(** The instrumentation counter on the selection routine. *)
Definition selections (σ : process) : nat :=
  length (filter (λ ev, is_Select ev = true) (trace σ)).

(** *** Several threads

    The same code, one statement at a time, for threads that share the slot.
    A thread is outside of the logical function, or has loaded the slot in
    the wrapper, or is in [vcl_dispatch] before the assignment of [g] to the
    slot or after it, with the call of [f] still to come. *)
Inductive thread : Type :=
| Outside
| Loaded (s : slot_value)
| Selected (g : fptr EntryPoint)
| Forwarding (g : fptr EntryPoint).

Definition enter (g : fptr EntryPoint) (σ : process) : option (process * thread) :=
  match g with
  | fn e => Some (emit [Invoke e] σ, Outside)
  | nullptr => None
  end.

Definition enter_f (σ : process) : option (process * thread) :=
  match f with
  | fn e => Some (emit [Forward e] σ, Outside)
  | nullptr => None
  end.

(** One statement of one thread; [None] where the behaviour is undefined. *)
Definition thread_step (σ : process) (t : thread) : option (process * thread) :=
  match t with
  | Outside => Some (σ, Loaded (vcl_fun_ptr σ))
  | Loaded dispatcher =>
      let n := instrset_detect in
      let g := select n v vs in
      Some (emit [Detect n; Select g] σ, Selected g)
  | Loaded (resolved g) => enter g σ
  | Selected g =>
      Some ({| vcl_fun_ptr := resolved g; trace := trace σ ++ [Store g] |},
            Forwarding g)
  | Forwarding _ => enter_f σ
  end.

Record config : Type := Config {
  shared : process;
  pool : list thread
}.

(** The thread [k] of the pool takes a step. *)
Definition sched_step (c : config) (k : nat) : option config :=
  t ← pool c !! k;
  '(σ, t') ← thread_step (shared c) t;
  Some {| shared := σ; pool := <[k := t']> (pool c) |}.

(** A schedule names the threads in the order in which they step. *)
Fixpoint run (sched : list nat) (c : config) : option config :=
  match sched with
  | [] => Some c
  | k :: sched' => c' ← sched_step c k; run sched' c'
  end.

(** The process at start, with [N] threads. *)
Definition start (N : nat) : config :=
  {| shared := VCL_DISPATCHER_IMPLEMENTATION; pool := replicate N Outside |}.

(** The invariant of the executions: the only pointer that is ever selected,
    held by a thread or assigned to the slot is the one [vcl_select] returns
    for the level of the host. *)
Definition slot_ok (s : slot_value) : Prop :=
  s = dispatcher ∨ s = resolved (select instrset_detect v vs).

Definition thread_ok (t : thread) : Prop :=
  match t with
  | Outside => True
  | Loaded s => slot_ok s
  | Selected g | Forwarding g => g = select instrset_detect v vs
  end.

Definition event_ok (ev : event) : Prop :=
  match ev with
  | Select g | Store g => g = select instrset_detect v vs
  | Detect n => n = instrset_detect
  | Invoke e => fn e = select instrset_detect v vs
  | Forward e => fn e = f
  end.

Definition inv (c : config) : Prop :=
  slot_ok (vcl_fun_ptr (shared c))
  ∧ Forall thread_ok (pool c)
  ∧ Forall event_ok (trace (shared c)).

End Dispatcher.

Arguments slot_value : clear implicits.
Arguments event : clear implicits.
Arguments outcome : clear implicits.
Arguments process : clear implicits.
Arguments thread : clear implicits.
Arguments config : clear implicits.

(** ** The scenario of the specification *)

Module Scenario.

Inductive impl : Type := A | B | C | D.

#[global] Instance impl_eq_dec : EqDecision impl.
Proof. solve_decision. Defined.

Definition V : VariantList impl := [(2, A); (5, B); (8, C); (10, D)]%Z.

(** Its head and its tail, as the packs of the templates split it. *)
Definition first : Z * impl := (2, A)%Z.
Definition others : VariantList impl := [(5, B); (8, C); (10, D)]%Z.

(** A host of level 7, in a program where the name [f] of the dispatcher
    resolves to [A]: the process after one call and after two calls. *)
Definition after_first : process impl :=
  {| vcl_fun_ptr := resolved (fn D);
     trace := [Detect 7; Select (fn D); Store (fn D); Forward A] |}.

Definition after_second : process impl :=
  {| vcl_fun_ptr := resolved (fn D);
     trace := [Detect 7; Select (fn D); Store (fn D); Forward A; Invoke D] |}.

(** Two threads that make their first call at the same time: both load the
    slot, both select, both store. *)
Definition race : list nat := [0; 1; 0; 1; 0; 1].

Definition after_race : config impl :=
  {| shared :=
       {| vcl_fun_ptr := resolved (fn D);
          trace := [Detect 7; Select (fn D); Detect 7; Select (fn D);
                    Store (fn D); Store (fn D)] |};
     pool := [Forwarding (fn D); Forwarding (fn D)] |}.

End Scenario.

(** ** Accounting of the selections under concurrency *)

Section Accounting.
Context {EntryPoint : Type}.

Definition is_resolved (s : slot_value EntryPoint) : bool :=
  match s with
  | dispatcher => false
  | resolved _ => true
  end.

(** An event that records the entry into a function. *)
Definition is_entry (ev : event EntryPoint) : bool :=
  match ev with
  | Invoke _ | Forward _ => true
  | Detect _ | Select _ | Store _ => false
  end.

(** A thread that calls through a pointer it has read from a resolved slot,
    or that has written the slot itself. *)
Definition past_store (t : thread EntryPoint) : bool :=
  match t with
  | Loaded (resolved _) | Forwarding _ => true
  | Outside | Loaded dispatcher | Selected _ => false
  end.

(** The selections a thread can still enter before the slot stops it: one
    when it has loaded the dispatcher, one when it is outside and would load
    the dispatcher, none otherwise. *)
Definition pending (s : slot_value EntryPoint) (t : thread EntryPoint) : nat :=
  match t with
  | Outside => if is_resolved s then 0 else 1
  | Loaded dispatcher => 1
  | Loaded (resolved _) | Selected _ | Forwarding _ => 0
  end.

Definition inv_count (N : nat) (c : config EntryPoint) : Prop :=
  selections (shared c)
    + sum_list_with (pending (vcl_fun_ptr (shared c))) (pool c) ≤ N
  ∧ (is_resolved (vcl_fun_ptr (shared c)) = false →
     Forall (λ t, past_store t = false) (pool c)
     ∧ Forall (λ ev, is_entry ev = false) (trace (shared c))).

End Accounting.

(** Two racing threads of the scenario, in a program where the name [f] of the
    dispatcher resolves to [A]; the first thread has finished its first call
    and has started a second one. *)
Module ScenarioCalls.

Definition schedule : list nat := [0; 1; 0; 1; 0; 1; 0; 0].

Definition reached : config Scenario.impl :=
  {| shared :=
       {| vcl_fun_ptr := resolved (fn Scenario.D);
          trace := [Detect 7; Select (fn Scenario.D);
                    Detect 7; Select (fn Scenario.D);
                    Store (fn Scenario.D); Store (fn Scenario.D);
                    Forward Scenario.A] |};
     pool := [Loaded (resolved (fn Scenario.D)); Forwarding (fn Scenario.D)] |}.

End ScenarioCalls.

(** ** The macros of easy_dispatch.h *)

(** An argument of a macro, as [VCL_INSTRSETS] supplies them: an integer
    literal, or nothing at all. *)
Inductive token : Type :=
| lit (n : Z)
| placemarker.

(** The identifiers that [VCL_CONCAT] pastes together: [vcl_<fun>_<n>] for an
    argument [n], and [vcl_<fun>_ptr]. *)
Inductive name : Type :=
| vcl (fun_ : string) (n : token)
| vcl_ptr (fun_ : string).

Definition VCL_CONCAT (fun_ : string) (n : token) : name := vcl fun_ n.

(** [VCL_DISPATCHED(fun)] in a unit compiled with [INSTRSET]. *)
Definition VCL_DISPATCHED (fun_ : string) (INSTRSET : Z) : name :=
  VCL_CONCAT fun_ (lit INSTRSET).

(** [VCL_FUNLIST_1] to [VCL_FUNLIST_11], called with [fun], [n] and the
    arguments [va] in place of the ellipsis.  [VCL_FUNLIST_1] takes no further
    argument ([None]: too many arguments for the macro); the others paste [n]
    and pass the remaining arguments on, which may be none at all. *)
Fixpoint VCL_FUNLIST_k (k : nat) (fun_ : string) (n : token) (va : list token)
    : option (list name) :=
  match k with
  | O => None
  | S O =>
      match va with
      | [] => Some [VCL_CONCAT fun_ n]
      | _ :: _ => None
      end
  | S k' =>
      let (n', va') :=
        match va with
        | [] => (placemarker, [])
        | n' :: va' => (n', va')
        end in
      cons (VCL_CONCAT fun_ n) <$> VCL_FUNLIST_k k' fun_ n' va'
  end.

(** [VCL_FUNLIST_(fun, n)]: [VCL_FUNLIST_##n] called on [fun] and
    [VCL_INSTRSETS], which is [a] followed by [va].  The pasted name is a macro
    for the literals 1 to 11 only. *)
Definition VCL_FUNLIST_ (fun_ : string) (n : token) (a : token) (va : list token)
    : option (list name) :=
  match n with
  | lit k =>
      if bool_decide (1 ≤ k ≤ 11)%Z
      then VCL_FUNLIST_k (Z.to_nat k) fun_ a va
      else None
  | placemarker => None
  end.

(** [VCL_GET_12TH]: the twelfth argument; the macro has eleven parameters
    before [N]. *)
Definition VCL_GET_12TH (args : list token) : option token := args !! 11.

(** [VCL_COUNT_ARGS(...)], called with the arguments [a], [va]. *)
Definition VCL_COUNT_ARGS (a : token) (va : list token) : option token :=
  VCL_GET_12TH
    (a :: va ++ (lit <$> [11; 10; 9; 8; 7; 6; 5; 4; 3; 2; 1; 0]%Z)).

(** [VCL_GET_1ST]: the first argument; the spacer that the macro appends
    only keeps the ellipsis of [VCL_GET_1ST_] from being empty. *)
Definition VCL_GET_1ST (a : token) (va : list token) : token := a.

Definition literal (t : token) : option Z :=
  match t with
  | lit n => Some n
  | placemarker => None
  end.

(** [#if INSTRSET == VCL_GET_1ST(VCL_INSTRSETS)]: whether the unit compiled
    with [INSTRSET] defines [VCL_DISPATCHER_IMPLEMENTED_HERE] and with it the
    slot and the dispatcher. *)
Definition VCL_DISPATCHER_IMPLEMENTED_HERE (INSTRSET : Z) (a : token)
    (va : list token) : option bool :=
  n ← literal (VCL_GET_1ST a va);
  Some (bool_decide (INSTRSET = n)).

(** [VCL_DISPATCHER_IMPLEMENTATION(fun)]: the variant list of the
    instantiation [vcl_dispatch<decltype(fun), vcl_fun_ptr,
    std::integer_sequence<int, VCL_INSTRSETS>, names ...>], where the names
    are [VCL_FUNLIST(fun, VCL_COUNT_ARGS(VCL_INSTRSETS))].  The levels have to
    be literals, and as many as there are names. *)
Definition VCL_DISPATCHER_IMPLEMENTATION_variants (fun_ : string) (a : token)
    (va : list token) : option (VariantList name) :=
  n ← VCL_COUNT_ARGS a va;
  names ← VCL_FUNLIST_ fun_ n a va;
  levels ← mapM literal (a :: va);
  if bool_decide (length levels = length names)
  then Some (zip levels names)
  else None.

(** [k] calls in sequence of the logical function in a program built for
    [VCL_INSTRSETS], on a host of level [host]; [f] is what the name [f] of
    the dispatcher resolves to in the program. *)
Definition program_calls (fun_ : string) (a : token) (va : list token)
    (host : Z) (f : fptr name) (k : nat)
    : option (list (outcome name) * process name) :=
  V ← VCL_DISPATCHER_IMPLEMENTATION_variants fun_ a va;
  match V with
  | [] => None
  | v :: vs => Some (calls host v vs f k VCL_DISPATCHER_IMPLEMENTATION)
  end.

(** ** The vector types of vector.h *)

(** The element types that the specialisations name; any other type argument
    is [other_type]. *)
Inductive scalar : Type :=
| int8_t | uint8_t | int16_t | uint16_t | int32_t | uint32_t
| int64_t | uint64_t | float | double | other_type.

#[global] Instance scalar_eq_dec : EqDecision scalar.
Proof. solve_decision. Defined.

(** One explicit specialisation [template<> struct ...<n, T> final { using
    type = ...; }]. *)
Definition explicit (n : N) (T : scalar) (type : string) : N * scalar * string :=
  (n, T, type).

(** The explicit specialisations of [Vec_N_T], in the order of the header:
    the two template arguments and the class that [type] names. *)
Definition Vec_N_T_specialisations : list (N * scalar * string) :=
  [
    explicit 16 int8_t "Vec16c";
    explicit 16 uint8_t "Vec16uc";
    explicit 8 int16_t "Vec8s";
    explicit 8 uint16_t "Vec8us";
    explicit 4 int32_t "Vec4i";
    explicit 4 uint32_t "Vec4ui";
    explicit 2 int64_t "Vec2q";
    explicit 2 uint64_t "Vec2uq";
    explicit 32 int8_t "Vec32c";
    explicit 32 uint8_t "Vec32uc";
    explicit 16 int16_t "Vec16s";
    explicit 16 uint16_t "Vec16us";
    explicit 8 int32_t "Vec8i";
    explicit 8 uint32_t "Vec8ui";
    explicit 4 int64_t "Vec4q";
    explicit 4 uint64_t "Vec4uq";
    explicit 64 int8_t "Vec64c";
    explicit 64 uint8_t "Vec64uc";
    explicit 32 int16_t "Vec32s";
    explicit 32 uint16_t "Vec32us";
    explicit 16 int32_t "Vec16i";
    explicit 16 uint32_t "Vec16ui";
    explicit 8 int64_t "Vec8q";
    explicit 8 uint64_t "Vec8uq";
    explicit 4 float "Vec4f";
    explicit 2 double "Vec2d";
    explicit 8 float "Vec8f";
    explicit 4 double "Vec4d";
    explicit 16 float "Vec16f";
    explicit 8 double "Vec8d"
  ].

(** The explicit specialisations of [Vec_N_b]. *)
Definition Vec_N_b_specialisations : list (N * scalar * string) :=
  [
    explicit 16 int8_t "Vec16cb";
    explicit 16 uint8_t "Vec16cb";
    explicit 8 int16_t "Vec8sb";
    explicit 8 uint16_t "Vec8sb";
    explicit 4 int32_t "Vec4ib";
    explicit 4 uint32_t "Vec4ib";
    explicit 2 int64_t "Vec2qb";
    explicit 2 uint64_t "Vec2qb";
    explicit 32 int8_t "Vec32cb";
    explicit 32 uint8_t "Vec32cb";
    explicit 16 int16_t "Vec16sb";
    explicit 16 uint16_t "Vec16sb";
    explicit 8 int32_t "Vec8ib";
    explicit 8 uint32_t "Vec8ib";
    explicit 4 int64_t "Vec4qb";
    explicit 4 uint64_t "Vec4qb";
    explicit 64 int8_t "Vec64cb";
    explicit 64 uint8_t "Vec64cb";
    explicit 32 int16_t "Vec32sb";
    explicit 32 uint16_t "Vec32sb";
    explicit 16 int32_t "Vec16ib";
    explicit 16 uint32_t "Vec16ib";
    explicit 8 int64_t "Vec8qb";
    explicit 8 uint64_t "Vec8qb";
    explicit 4 float "Vec4fb";
    explicit 2 double "Vec2db";
    explicit 8 float "Vec8fb";
    explicit 4 double "Vec4db";
    explicit 16 float "Vec16fb";
    explicit 8 double "Vec8db"
  ].

(** The member [type] of the specialisation for the arguments, when there is
    one; the primary templates are declared and not defined. *)
Definition specialisation (table : list (N * scalar * string))
    (elements_per_vector : N) (T : scalar) : option string :=
  snd <$> List.find (λ row, bool_decide (row.1 = (elements_per_vector, T))) table.

Definition Vec_N_T : N → scalar → option string :=
  specialisation Vec_N_T_specialisations.

Definition Vec_N_b : N → scalar → option string :=
  specialisation Vec_N_b_specialisations.

(** [Vec<elements_per_vector, T>]. *)
Definition Vec (elements_per_vector : N) (T : scalar) : option string :=
  Vec_N_T elements_per_vector T.

(** The wrappers for a fixed element type, each with the letters that follow
    [Vec_] in its name. *)
Definition Vec_c (n : N) : option string := Vec n int8_t.
Definition Vec_uc (n : N) : option string := Vec n uint8_t.
Definition Vec_s (n : N) : option string := Vec n int16_t.
Definition Vec_us (n : N) : option string := Vec n uint16_t.
Definition Vec_i (n : N) : option string := Vec n int32_t.
Definition Vec_ui (n : N) : option string := Vec n uint32_t.
Definition Vec_q (n : N) : option string := Vec n int64_t.
Definition Vec_uq (n : N) : option string := Vec n uint64_t.
Definition Vec_f (n : N) : option string := Vec n float.
Definition Vec_d (n : N) : option string := Vec n double.

Definition wrapper (letters : string) (alias : N → option string)
    : string * (N → option string) :=
  (letters, alias).

Definition type_wrappers : list (string * (N → option string)) :=
  [wrapper "c" Vec_c; wrapper "uc" Vec_uc; wrapper "s" Vec_s;
   wrapper "us" Vec_us; wrapper "i" Vec_i; wrapper "ui" Vec_ui;
   wrapper "q" Vec_q; wrapper "uq" Vec_uq; wrapper "f" Vec_f;
   wrapper "d" Vec_d].

(** The wrappers for a fixed size, each with the number in its name. *)
Definition Vec64 (T : scalar) : option string := Vec 64 T.
Definition Vec32 (T : scalar) : option string := Vec 32 T.
Definition Vec16 (T : scalar) : option string := Vec 16 T.
Definition Vec8 (T : scalar) : option string := Vec 8 T.
Definition Vec4 (T : scalar) : option string := Vec 4 T.
Definition Vec2 (T : scalar) : option string := Vec 2 T.

Definition size_wrappers : list (N * (scalar → option string)) :=
  [(64%N, Vec64); (32%N, Vec32); (16%N, Vec16); (8%N, Vec8); (4%N, Vec4);
   (2%N, Vec2)].

(** The width of an element type in bits: the number in the name of the
    integer types, 32 for [float] and 64 for [double]. *)
Definition bits (T : scalar) : option N :=
  match T with
  | int8_t | uint8_t => Some 8
  | int16_t | uint16_t => Some 16
  | int32_t | uint32_t | float => Some 32
  | int64_t | uint64_t | double => Some 64
  | other_type => None
  end%N.

(** The signed integer type of the same width; the other types are left. *)
Definition to_signed (T : scalar) : scalar :=
  match T with
  | uint8_t => int8_t
  | uint16_t => int16_t
  | uint32_t => int32_t
  | uint64_t => int64_t
  | _ => T
  end.

(** Going through the rows of a table that a specialisation can come from. *)
Ltac rows H :=
  unfold Vec_N_T_specialisations, Vec_N_b_specialisations, explicit in H;
  repeat match type of H with
         | _ ∈ _ :: _ => apply elem_of_cons in H as [H|H]; [simplify_eq|]
         end;
  try (by apply elem_of_nil in H).

(** ** The enumeration of instrset_enum.h *)

Module instrset.

Inductive enumerator : Type :=
| X386 | SSE | SSE2 | SSE3 | SSSE3 | SSE4_1 | SSE4_2 | AVX | AVX2 | AVX512F
| AVX512VL | AVX512BW | AVX512DQ.

(** The value that the enumeration gives to each of its enumerators. *)
Definition value (e : enumerator) : Z :=
  match e with
  | X386 => 0
  | SSE => 1
  | SSE2 => 2
  | SSE3 => 3
  | SSSE3 => 4
  | SSE4_1 => 5
  | SSE4_2 => 6
  | AVX => 7
  | AVX2 => 8
  | AVX512F => 9
  | AVX512VL | AVX512BW | AVX512DQ => 10
  end.

End instrset.

(** * Properties *)

(** ** What the templates compute *)

Section SelectionFacts.
Context {EntryPoint : Type}.
Implicit Types (n i j : Z) (e : EntryPoint) (v w : Z * EntryPoint).
Implicit Types (vs ws : VariantList EntryPoint).

(** The recursion on a pack of implementations never returns null. *)
Lemma vcl_select_nonnull n i e vs :
  to_bool (vcl_select n i (fn e) (VCL_FUNLIST vs)) = true.
Proof.
  revert i e. induction vs as [|[j e'] vs IH]; intros i e; simpl.
  - reflexivity.
  - rewrite IH. apply IH.
Qed.

(** So the second overload always hands on what the recursion returned. *)
Lemma select_cons n v w ws :
  select n v (w :: ws) = select n w ws.
Proof. unfold select. simpl. by rewrite vcl_select_nonnull. Qed.

Lemma last_cons_default v vs :
  last (v :: vs) = Some (default v (last vs)).
Proof. rewrite last_cons. by destruct (last vs). Qed.

Lemma select_last n v vs :
  select n v vs = fn (default v (last vs)).2.
Proof.
  revert v. induction vs as [|w vs IH]; intros v.
  - reflexivity.
  - by rewrite select_cons, IH, last_cons_default.
Qed.

Lemma select_elem_of n v vs :
  ∃ x, x ∈ v :: vs ∧ last (v :: vs) = Some x ∧ select n v vs = fn x.2.
Proof.
  exists (default v (last vs)). split_and!.
  - apply last_Some_elem_of, last_cons_default.
  - apply last_cons_default.
  - apply select_last.
Qed.

Lemma select_independent n m v vs :
  select n v vs = select m v vs.
Proof. by rewrite !select_last. Qed.

Lemma level_of_elem_of `{!EqDecision EntryPoint} (x : Z * EntryPoint) V :
  x ∈ V → is_Some (level_of (fn x.2) V).
Proof.
  intros Hx. unfold level_of.
  destruct (List.find _ V) as [y|] eqn:Hfind; [by eexists|].
  apply list_elem_of_In in Hx.
  pose proof (find_none _ _ Hfind _ Hx) as Hnone. simpl in Hnone.
  by rewrite bool_decide_eq_false in Hnone.
Qed.

(** The selection agrees with the specification's wording when the host
    supports the highest tier of the list. *)
Lemma select_spec_agree n v vs x :
  last (v :: vs) = Some x → (x.1 ≤ n)%Z →
  spec_select n (v :: vs) = Some x.2 ∧ select n v vs = fn x.2.
Proof.
  intros Hlast Hle. split.
  - apply last_Some in Hlast as [l' Hl']. unfold spec_select.
    rewrite Hl', reverse_snoc. simpl.
    by rewrite (proj2 (Z.leb_le _ _) Hle).
  - destruct (select_elem_of n v vs) as (y & _ & Hy & ->). congruence.
Qed.

End SelectionFacts.

(** ** The selection *)

Section SelectionClaims.
Context {EntryPoint : Type}.
Implicit Types (n m i j : Z) (e : EntryPoint) (v w : Z * EntryPoint).
Implicit Types (vs ws : VariantList EntryPoint).

(** C4: as implemented, for every non-empty ascending variant list [v :: vs]
    and every detected level [n], [vcl_select] returns the last
    (highest-level) entry of the list.  At every level of the recursion (the
    list is [pre ++ w :: w' :: ws], the second overload runs on [w] and
    recurses on [w' :: ws]) the result [g] of the recursion is non-null and is
    what the overload returns, so that neither [i <= n] nor [return nullptr]
    is reached, and the result is the same for every other level [m]. *)
Theorem vcl_select_returns_last n v vs :
  ascending_variants (v :: vs) = true →
  (∃ x, last (v :: vs) = Some x ∧ select n v vs = fn x.2)
  ∧ (∀ pre w w' ws, v :: vs = pre ++ w :: w' :: ws →
       to_bool (select n w' ws) = true
       ∧ select n w (w' :: ws) = select n w' ws)
  ∧ (∀ m, select m v vs = select n v vs).
Proof.
  intros _. split_and!.
  - destruct (select_elem_of n v vs) as (x & _ & Hlast & Hsel). eauto.
  - intros pre w w' ws _. split.
    + apply vcl_select_nonnull.
    + apply select_cons.
  - intros m. apply select_independent.
Qed.

(** C7: for every non-empty ascending variant list [v :: vs] and every
    detected level [n], the selection returns a pointer to an implementation
    that is a member of the list, and never the null pointer. *)
Theorem select_never_fails n v vs :
  ascending_variants (v :: vs) = true →
  ∃ x, x ∈ v :: vs ∧ select n v vs = fn x.2 ∧ select n v vs ≠ nullptr.
Proof.
  intros _. destruct (select_elem_of n v vs) as (x & Hin & _ & Hsel).
  exists x. split_and!; [done|done|]. by rewrite Hsel.
Qed.

(** C8: for a variant list with the single entry [(i, e)], the selection
    returns [e] for every detected level [n], also for [n < i]. *)
Theorem select_single n i e :
  select n (i, e) [] = fn e.
Proof. reflexivity. Qed.

(** C9: the selection is monotone in the detected level: for an ascending
    variant list [v :: vs] and [n1 <= n2], the entries selected for [n1] and
    for [n2] are listed under levels [l1 <= l2]. *)
Theorem select_monotone `{!EqDecision EntryPoint} (n1 n2 : Z) v vs :
  ascending_variants (v :: vs) = true →
  (n1 ≤ n2)%Z →
  ∃ l1 l2,
    level_of (select n1 v vs) (v :: vs) = Some l1
    ∧ level_of (select n2 v vs) (v :: vs) = Some l2
    ∧ (l1 ≤ l2)%Z.
Proof.
  intros _ _. destruct (select_elem_of n1 v vs) as (x & Hin & _ & Hsel).
  destruct (level_of_elem_of x _ Hin) as [l Hl].
  exists l, l. rewrite (select_independent n2 n1), Hsel. split_and!; [done|done|lia].
Qed.

End SelectionClaims.

Lemma vcl_select_returns_last_witness :
  ascending_variants Scenario.V = true
  ∧ (∃ x, last Scenario.V = Some x
          ∧ select 7 Scenario.first Scenario.others = fn x.2).
Proof.
  split; [reflexivity|].
  apply (vcl_select_returns_last 7 Scenario.first Scenario.others).
  reflexivity.
Defined.

Lemma select_never_fails_witness :
  ascending_variants Scenario.V = true
  ∧ ∃ x, x ∈ Scenario.V
         ∧ select 0 Scenario.first Scenario.others = fn x.2
         ∧ select 0 Scenario.first Scenario.others ≠ nullptr.
Proof.
  split; [reflexivity|].
  apply (select_never_fails 0 Scenario.first Scenario.others).
  reflexivity.
Defined.

Lemma select_monotone_witness :
  ascending_variants Scenario.V = true
  ∧ (5 ≤ 8)%Z
  ∧ ∃ l1 l2,
      level_of (select 5 Scenario.first Scenario.others) Scenario.V = Some l1
      ∧ level_of (select 8 Scenario.first Scenario.others) Scenario.V = Some l2
      ∧ (l1 ≤ l2)%Z.
Proof.
  split; [reflexivity|]. split; [lia|].
  apply (select_monotone 5 8 Scenario.first Scenario.others); [reflexivity|lia].
Defined.

(** C1: the specification has the selection return the entry with the
    greatest level [<= n], and the lowest entry when there is none.  On the
    scenario's list the templates return [D] (level 10) for the host levels 6
    and 1, where the specification's selection is [B] (level 5) and [A]
    (level 2, the fallback). *)
Theorem select_not_greatest_level_below_host :
  select 6 Scenario.first Scenario.others = fn Scenario.D
  ∧ spec_select 6 Scenario.V = Some Scenario.B
  ∧ select 1 Scenario.first Scenario.others = fn Scenario.D
  ∧ spec_select 1 Scenario.V = Some Scenario.A.
Proof. repeat split. Qed.

(** C2: on [V = [(2,A); (5,B); (8,C); (10,D)]] the templates return [D] for
    each of the detected levels 7, 10, 0 and 11; the scenario expects [B],
    [D], [A] and [D]. *)
Theorem scenario_selects_D :
  select 7 Scenario.first Scenario.others = fn Scenario.D
  ∧ select 10 Scenario.first Scenario.others = fn Scenario.D
  ∧ select 0 Scenario.first Scenario.others = fn Scenario.D
  ∧ select 11 Scenario.first Scenario.others = fn Scenario.D.
Proof. repeat split. Qed.

(** ** Calls in sequence *)

Section DispatcherFacts.
Context {EntryPoint : Type}.
Variable instrset_detect : Z.
Variable v : Z * EntryPoint.
Variable vs : VariantList EntryPoint.
Variable f : fptr EntryPoint.


Implicit Types (σ : process EntryPoint) (c : config EntryPoint).
Implicit Types (e : EntryPoint) (g : fptr EntryPoint).

Lemma selected_fn :
  ∃ x, x ∈ v :: vs ∧ select instrset_detect v vs = fn x.2.
Proof. destruct (select_elem_of instrset_detect v vs) as (x & ? & _ & ?). eauto. Qed.

Lemma emit_emit evs evs' σ : emit evs' (emit evs σ) = emit (evs ++ evs') σ.
Proof. unfold emit. simpl. by rewrite app_assoc. Qed.

Lemma emit_nil σ : emit [] σ = σ.
Proof. destruct σ. unfold emit. simpl. by rewrite app_nil_r. Qed.

Lemma selections_emit evs σ :
  selections (emit evs σ)
  = selections σ + length (filter (λ ev, is_Select ev = true) evs).
Proof. unfold selections, emit. simpl. by rewrite filter_app, length_app. Qed.

Lemma selections_emit_Invoke k e σ :
  selections (emit (replicate k (Invoke e)) σ) = selections σ.
Proof.
  rewrite selections_emit.
  assert (filter (λ ev, is_Select ev = true) (replicate k (Invoke e)) = []) as ->.
  { induction k as [|k IH]; [done|]. simpl. rewrite filter_cons_False; done. }
  simpl. lia.
Qed.

(** The first call: the dispatcher selects, writes the slot and calls
    [f]. *)
Lemma VCL_DISPATCH_first σ e :
  vcl_fun_ptr σ = dispatcher → select instrset_detect v vs = fn e →
  VCL_DISPATCH instrset_detect v vs f σ
  = forward f
      {| vcl_fun_ptr := resolved (fn e);
         trace := trace σ ++ [Detect instrset_detect; Select (fn e);
                              Store (fn e)] |}.
Proof.
  intros Hslot Hsel. unfold VCL_DISPATCH, vcl_dispatch. by rewrite Hslot, Hsel.
Qed.

(** A later call: the wrapper calls the implementation through the slot. *)
Lemma VCL_DISPATCH_resolved σ e :
  vcl_fun_ptr σ = resolved (fn e) →
  VCL_DISPATCH instrset_detect v vs f σ = (Returned e, emit [Invoke e] σ).
Proof. intros Hslot. unfold VCL_DISPATCH. by rewrite Hslot. Qed.

Lemma calls_resolved k σ e :
  vcl_fun_ptr σ = resolved (fn e) →
  calls instrset_detect v vs f k σ
  = (replicate k (Returned e), emit (replicate k (Invoke e)) σ).
Proof.
  revert σ. induction k as [|k IH]; intros σ Hslot; simpl.
  - by rewrite emit_nil.
  - rewrite (VCL_DISPATCH_resolved _ _ Hslot), IH by done.
    by rewrite emit_emit.
Qed.

(** The slot after the first call and the events of the call, apart from the
    entry into [f]. *)
Lemma forward_slot σ :
  vcl_fun_ptr (forward f σ).2 = vcl_fun_ptr σ
  ∧ selections (forward f σ).2 = selections σ.
Proof.
  unfold forward. destruct f as [|e]; [done|]. simpl. split; [done|].
  rewrite selections_emit. simpl. lia.
Qed.

Lemma forward_Returned σ e σ' :
  forward f σ = (Returned e, σ') → f = fn e ∧ σ' = emit [Forward e] σ.
Proof. unfold forward. destruct f; [done|]. by intros [= <- <-]. Qed.

Lemma calls_selections k σ :
  slot_ok instrset_detect v vs (vcl_fun_ptr σ) →
  selections (calls instrset_detect v vs f k σ).2
  ≤ selections σ + (if vcl_fun_ptr σ is dispatcher then 1 else 0).
Proof.
  destruct selected_fn as (x & _ & Hsel).
  revert σ. induction k as [|k IH]; intros σ Hok; simpl.
  - lia.
  - destruct (VCL_DISPATCH instrset_detect v vs f σ) as [o σ'] eqn:Hcall.
    assert (vcl_fun_ptr σ' = resolved (fn x.2)
            ∧ selections σ'
              = selections σ + (if vcl_fun_ptr σ is dispatcher then 1 else 0))
      as [Hslot' Hsel'].
    { destruct Hok as [Hslot|Hslot].
      - rewrite (VCL_DISPATCH_first _ _ Hslot Hsel) in Hcall.
        pose proof (forward_slot
                      {| vcl_fun_ptr := resolved (fn x.2);
                         trace := trace σ ++ [Detect instrset_detect;
                                              Select (fn x.2); Store (fn x.2)] |})
          as [Hs Hn].
        rewrite Hcall in Hs, Hn. simpl in Hs, Hn. rewrite Hslot. split; [done|].
        rewrite Hn. unfold selections. simpl.
        rewrite filter_app, length_app. simpl. lia.
      - rewrite Hsel in Hslot.
        rewrite (VCL_DISPATCH_resolved _ _ Hslot) in Hcall.
        injection Hcall as <- <-. rewrite Hslot. split; [done|].
        rewrite selections_emit. simpl. lia. }
    specialize (IH σ'). rewrite Hslot' in IH.
    destruct (calls instrset_detect v vs f k σ') as [os σ''].
    simpl in *. rewrite Hsel' in IH. rewrite Nat.add_0_r in IH. apply IH.
    right. by rewrite Hsel.
Qed.

(** No call ends with an exception, whatever the level of the host is and
    whatever [f] names. *)
Lemma VCL_DISPATCH_never_raises σ x :
  (VCL_DISPATCH instrset_detect v vs f σ).1 ≠ Raised x.
Proof.
  unfold VCL_DISPATCH, vcl_dispatch, forward, call.
  destruct (vcl_fun_ptr σ) as [|[|e]]; [by destruct f|done|done].
Qed.

(** C5: two calls of the logical function in sequence, in a process whose
    host has the level [instrset_detect].  The first one, from the initial
    slot, returns (from the function [e1] that the dispatcher forwards to)
    and ends in [σ1]; the second one ends in [σ2] with outcome [o2].  After
    the first call and after the second the slot holds the same
    implementation [e], the selected one; the second call returns from [e]
    and adds nothing but the entry into [e] to the trace, so it runs neither
    the detection nor the selection nor a store; and however many calls
    follow one another, the selection has run at most once. *)
Theorem dispatch_twice_same_entry σ1 σ2 e1 o2 :
  VCL_DISPATCH instrset_detect v vs f VCL_DISPATCHER_IMPLEMENTATION
  = (Returned e1, σ1) →
  VCL_DISPATCH instrset_detect v vs f σ1 = (o2, σ2) →
  ∃ e,
    select instrset_detect v vs = fn e
    ∧ vcl_fun_ptr σ1 = resolved (fn e) ∧ vcl_fun_ptr σ2 = resolved (fn e)
    ∧ o2 = Returned e
    ∧ trace σ2 = trace σ1 ++ [Invoke e]
    ∧ selections σ1 = 1 ∧ selections σ2 = 1
    ∧ ∀ k, selections
             (calls instrset_detect v vs f k VCL_DISPATCHER_IMPLEMENTATION).2 ≤ 1.
Proof.
  destruct selected_fn as (x & _ & Hsel).
  rewrite (VCL_DISPATCH_first VCL_DISPATCHER_IMPLEMENTATION _ eq_refl Hsel).
  intros [_ ->]%forward_Returned.
  rewrite (VCL_DISPATCH_resolved _ x.2) by done.
  intros [= <- <-]. exists x.2. split_and!; try done.
  intros k.
  pose proof (calls_selections k VCL_DISPATCHER_IMPLEMENTATION) as Hk.
  simpl in Hk. apply Hk. by left.
Qed.

(** ** Threads sharing the slot *)

Lemma inv_start N : inv instrset_detect v vs f (start N).
Proof.
  split_and!; simpl.
  - by left.
  - apply Forall_replicate. exact I.
  - constructor.
Qed.

Lemma Forall_event_ok_emit evs σ :
  Forall (event_ok instrset_detect v vs f) (trace σ) →
  Forall (event_ok instrset_detect v vs f) evs →
  Forall (event_ok instrset_detect v vs f) (trace (emit evs σ)).
Proof. intros. simpl. by apply Forall_app. Qed.

Lemma enter_f_Some σ σ' t' :
  enter_f f σ = Some (σ', t') →
  ∃ e, f = fn e ∧ σ' = emit [Forward e] σ ∧ t' = Outside.
Proof. unfold enter_f. destruct f as [|e]; [done|]. intros [= <- <-]. eauto. Qed.

(** One statement of a thread keeps the invariant, and leaves the slot as it
    is or assigns the selected pointer to it. *)
Lemma thread_step_inv σ t σ' t' :
  thread_step instrset_detect v vs f σ t = Some (σ', t') →
  slot_ok instrset_detect v vs (vcl_fun_ptr σ) →
  thread_ok instrset_detect v vs t →
  Forall (event_ok instrset_detect v vs f) (trace σ) →
  slot_ok instrset_detect v vs (vcl_fun_ptr σ')
  ∧ thread_ok instrset_detect v vs t'
  ∧ Forall (event_ok instrset_detect v vs f) (trace σ')
  ∧ (vcl_fun_ptr σ' = vcl_fun_ptr σ ∨ vcl_fun_ptr σ' = resolved (select instrset_detect v vs)).
Proof.
  intros Hstep Hslot Ht Htr.
  destruct t as [|[|g]|g|g]; simpl in Hstep, Ht.
  - injection Hstep as <- <-. simpl. auto.
  - injection Hstep as <- <-. split_and!; [done|done| |by left].
    apply Forall_event_ok_emit; [done|]. repeat constructor.
  - destruct g as [|e]; [done|]. injection Hstep as <- <-.
    split_and!; [done|done| |by left].
    apply Forall_event_ok_emit; [done|]. repeat constructor.
    destruct Ht as [Ht|Ht]; [done|]. by injection Ht.
  - injection Hstep as <- <-. subst g. simpl. split_and!.
    + by right.
    + done.
    + apply Forall_app. split; [done|]. by repeat constructor.
    + by right.
  - apply enter_f_Some in Hstep as (e & Hf & -> & ->).
    split_and!; [done|done| |by left].
    apply Forall_event_ok_emit; [done|]. by repeat constructor.
Qed.

Lemma sched_step_inv c k c' :
  sched_step instrset_detect v vs f c k = Some c' →
  inv instrset_detect v vs f c →
  inv instrset_detect v vs f c'
  ∧ length (pool c') = length (pool c)
  ∧ (vcl_fun_ptr (shared c') = vcl_fun_ptr (shared c)
     ∨ vcl_fun_ptr (shared c') = resolved (select instrset_detect v vs)).
Proof.
  unfold sched_step. intros Hstep (Hslot & Hpool & Htr).
  destruct (pool c !! k) as [t|] eqn:Hk; [|done]. simpl in Hstep.
  destruct (thread_step _ _ _ _ _ t) as [[σ t']|] eqn:Ht; [|done].
  injection Hstep as <-. simpl.
  destruct (thread_step_inv _ _ _ _ Ht Hslot) as (? & ? & ? & ?);
    [by eapply Forall_lookup_1|done|].
  split_and!; [split_and!|..]; try done.
  - by apply Forall_insert.
  - apply length_insert.
Qed.

Lemma run_inv sched c c' :
  run instrset_detect v vs f sched c = Some c' →
  inv instrset_detect v vs f c →
  inv instrset_detect v vs f c'.
Proof.
  revert c. induction sched as [|k sched IH]; intros c; simpl.
  - by intros [= <-].
  - destruct (sched_step _ _ _ _ c k) as [c1|] eqn:Hk; [|done]. simpl.
    intros Hrun Hinv. apply (IH c1 Hrun).
    by destruct (sched_step_inv _ _ _ Hk Hinv).
Qed.

(** Once the slot is resolved no step changes it. *)
Lemma run_resolved sched c c' :
  run instrset_detect v vs f sched c = Some c' →
  inv instrset_detect v vs f c →
  vcl_fun_ptr (shared c) ≠ dispatcher →
  vcl_fun_ptr (shared c') = vcl_fun_ptr (shared c).
Proof.
  revert c. induction sched as [|k sched IH]; intros c; simpl.
  - by intros [= <-].
  - destruct (sched_step _ _ _ _ c k) as [c1|] eqn:Hk; [|done]. simpl.
    intros Hrun Hinv Hres.
    destruct (sched_step_inv _ _ _ Hk Hinv) as (Hinv1 & _ & Hslot).
    assert (vcl_fun_ptr (shared c1) = vcl_fun_ptr (shared c)) as Heq.
    { destruct Hslot as [|Hslot]; [done|].
      destruct Hinv as ([|Hc] & _); [done|]. by rewrite Hslot, Hc. }
    rewrite <-Heq. apply IH; [done|done|by rewrite Heq].
Qed.

(** When [f] names a function, no thread ever calls through a null pointer:
    every thread of the pool can take its next step. *)
Lemma sched_step_defined c k :
  to_bool f = true →
  inv instrset_detect v vs f c →
  k < length (pool c) →
  is_Some (sched_step instrset_detect v vs f c k).
Proof.
  intros Hf (Hslot & Hpool & _) Hk. unfold sched_step.
  destruct (lookup_lt_is_Some_2 _ _ Hk) as [t Ht]. rewrite Ht. simpl.
  pose proof (Forall_lookup_1 _ _ _ _ Hpool Ht) as Hok.
  destruct selected_fn as (x & _ & Hsel).
  destruct t as [|[|g]|g|g]; simpl in *; try by eexists.
  - destruct Hok as [|[= ->]]; [done|]. rewrite Hsel. by eexists.
  - unfold enter_f. destruct f; [done|]. by eexists.
Qed.

Lemma run_defined sched c :
  to_bool f = true →
  inv instrset_detect v vs f c →
  Forall (λ k, k < length (pool c)) sched →
  is_Some (run instrset_detect v vs f sched c).
Proof.
  intros Hf.
  revert c. induction sched as [|k sched IH]; intros c Hinv Hsched; simpl.
  - by eexists.
  - apply Forall_cons in Hsched as [Hk Hsched].
    destruct (sched_step_defined c k Hf Hinv Hk) as [c1 Hc1]. rewrite Hc1. simpl.
    destruct (sched_step_inv _ _ _ Hc1 Hinv) as (Hinv1 & Hlen & _).
    apply IH; [done|]. by rewrite Hlen.
Qed.

(** A call of the wrapper is what its thread does when it runs alone. *)
Lemma VCL_DISPATCH_run σ :
  to_bool f = true →
  slot_ok instrset_detect v vs (vcl_fun_ptr σ) →
  ∃ sched,
    run instrset_detect v vs f sched {| shared := σ; pool := [Outside] |}
    = Some {| shared := (VCL_DISPATCH instrset_detect v vs f σ).2;
              pool := [Outside] |}.
Proof.
  intros Hf. destruct selected_fn as (x & _ & Hsel). intros [Hslot|Hslot].
  - exists [0; 0; 0; 0].
    rewrite (VCL_DISPATCH_first _ _ Hslot Hsel). simpl.
    unfold sched_step. simpl. rewrite Hslot. simpl. rewrite Hsel. simpl.
    unfold forward, enter_f. destruct f; [done|].
    unfold emit. simpl. by rewrite <-!app_assoc.
  - rewrite Hsel in Hslot. exists [0; 0].
    rewrite (VCL_DISPATCH_resolved _ _ Hslot). simpl.
    unfold sched_step. simpl. by rewrite Hslot.
Qed.

(** C6: in every configuration [c] that a process with [N] threads reaches,
    under any schedule, the slot holds the dispatcher it was initialised
    with, or the address of an implementation of the variant list; it does
    not hold the null pointer; and when it holds an implementation, it holds
    the same one in every configuration [c'] reached from [c]. *)
Theorem slot_dispatcher_or_entry N sched c :
  run instrset_detect v vs f sched (start N) = Some c →
  vcl_fun_ptr (shared (start N)) = dispatcher (EntryPoint := EntryPoint)
  ∧ (vcl_fun_ptr (shared c) = dispatcher
     ∨ ∃ x, x ∈ v :: vs ∧ vcl_fun_ptr (shared c) = resolved (fn x.2))
  ∧ vcl_fun_ptr (shared c) ≠ resolved nullptr
  ∧ (∀ sched' c',
       run instrset_detect v vs f sched' c = Some c' →
       vcl_fun_ptr (shared c) ≠ dispatcher →
       vcl_fun_ptr (shared c') = vcl_fun_ptr (shared c)).
Proof.
  intros Hrun. pose proof (run_inv _ _ _ Hrun (inv_start N)) as Hinv.
  destruct selected_fn as (x & Hx & Hsel).
  destruct Hinv as (Hslot & _). unfold slot_ok in Hslot. rewrite Hsel in Hslot.
  split_and!.
  - done.
  - destruct Hslot as [|Hslot]; [by left|]. right. by exists x.
  - by destruct Hslot as [-> | ->].
  - intros sched' c' Hrun' Hres. apply (run_resolved _ _ _ Hrun'); [|done].
    by apply (run_inv _ _ _ Hrun), inv_start.
Qed.

(** C10: the selection is a function of the detected level and of the
    variant list, so in every configuration that a process with [N] threads
    reaches, under any schedule, every evaluation of the selection has
    returned the same implementation [e], every store to the slot has written
    [e], and every thread that is about to write the slot writes [e]. *)
Theorem racing_threads_same_entry N sched c :
  run instrset_detect v vs f sched (start N) = Some c →
  ∃ e,
    select instrset_detect v vs = fn e
    ∧ (∀ g, Select g ∈ trace (shared c) → g = fn e)
    ∧ (∀ g, Store g ∈ trace (shared c) → g = fn e)
    ∧ (∀ g, Selected g ∈ pool c → g = fn e).
Proof.
  intros Hrun. pose proof (run_inv _ _ _ Hrun (inv_start N)) as Hinv.
  destruct selected_fn as (x & _ & Hsel). exists x.2.
  destruct Hinv as (_ & Hpool & Htr).
  rewrite Forall_forall in Hpool. rewrite Forall_forall in Htr.
  split_and!; [done|..]; intros g Hg; rewrite <-Hsel.
  - apply (Htr _ Hg).
  - apply (Htr _ Hg).
  - apply (Hpool _ Hg).
Qed.

End DispatcherFacts.

Lemma dispatch_twice_same_entry_witness :
  VCL_DISPATCH 7 Scenario.first Scenario.others (fn Scenario.A)
    VCL_DISPATCHER_IMPLEMENTATION
  = (Returned Scenario.A, Scenario.after_first)
  ∧ VCL_DISPATCH 7 Scenario.first Scenario.others (fn Scenario.A)
      Scenario.after_first
    = (Returned Scenario.D, Scenario.after_second)
  ∧ ∃ e,
      select 7 Scenario.first Scenario.others = fn e
      ∧ vcl_fun_ptr Scenario.after_first = resolved (fn e)
      ∧ vcl_fun_ptr Scenario.after_second = resolved (fn e)
      ∧ Returned Scenario.D = Returned e
      ∧ trace Scenario.after_second = trace Scenario.after_first ++ [Invoke e]
      ∧ selections Scenario.after_first = 1
      ∧ selections Scenario.after_second = 1
      ∧ ∀ k, selections
               (calls 7 Scenario.first Scenario.others (fn Scenario.A) k
                  VCL_DISPATCHER_IMPLEMENTATION).2 ≤ 1.
Proof.
  split; [reflexivity|]. split; [reflexivity|].
  apply (dispatch_twice_same_entry 7 Scenario.first Scenario.others
           (fn Scenario.A) Scenario.after_first Scenario.after_second
           Scenario.A (Returned Scenario.D));
    reflexivity.
Defined.

Lemma slot_dispatcher_or_entry_witness :
  run 7 Scenario.first Scenario.others (fn Scenario.A) Scenario.race (start 2)
  = Some Scenario.after_race
  ∧ vcl_fun_ptr (shared (start 2)) = dispatcher (EntryPoint := Scenario.impl)
  ∧ (vcl_fun_ptr (shared Scenario.after_race) = dispatcher
     ∨ ∃ x, x ∈ Scenario.V
            ∧ vcl_fun_ptr (shared Scenario.after_race) = resolved (fn x.2))
  ∧ vcl_fun_ptr (shared Scenario.after_race) ≠ resolved nullptr
  ∧ (∀ sched' c',
       run 7 Scenario.first Scenario.others (fn Scenario.A) sched'
         Scenario.after_race = Some c' →
       vcl_fun_ptr (shared Scenario.after_race) ≠ dispatcher →
       vcl_fun_ptr (shared c') = vcl_fun_ptr (shared Scenario.after_race)).
Proof.
  split; [reflexivity|].
  apply (slot_dispatcher_or_entry 7 Scenario.first Scenario.others
           (fn Scenario.A) 2 Scenario.race Scenario.after_race).
  reflexivity.
Defined.

Lemma racing_threads_same_entry_witness :
  run 7 Scenario.first Scenario.others (fn Scenario.A) Scenario.race (start 2)
  = Some Scenario.after_race
  ∧ ∃ e,
      select 7 Scenario.first Scenario.others = fn e
      ∧ (∀ g, Select g ∈ trace (shared Scenario.after_race) → g = fn e)
      ∧ (∀ g, Store g ∈ trace (shared Scenario.after_race) → g = fn e)
      ∧ (∀ g, Selected g ∈ pool Scenario.after_race → g = fn e).
Proof.
  split; [reflexivity|].
  apply (racing_threads_same_entry 7 Scenario.first Scenario.others
           (fn Scenario.A) 2 Scenario.race Scenario.after_race).
  reflexivity.
Defined.

(** C3: the specification has the first call raise when the host is below
    the lowest tier of the variant list.  On the scenario's list, whose lowest
    tier is 2, the first call on a host of level 0 raises nothing, whatever
    function the name [f] of the dispatcher resolves to: the dispatcher writes
    [D] (level 10) to the slot and calls [f], and when [f] names a function
    [e] the call enters [e] and returns its result. *)
Theorem first_call_below_minimum_raises_nothing (f : fptr Scenario.impl) :
  (∀ x,
     (VCL_DISPATCH 0 Scenario.first Scenario.others f
        VCL_DISPATCHER_IMPLEMENTATION).1 ≠ Raised x)
  ∧ vcl_fun_ptr
      (VCL_DISPATCH 0 Scenario.first Scenario.others f
         VCL_DISPATCHER_IMPLEMENTATION).2
    = resolved (fn Scenario.D)
  ∧ (∀ e, f = fn e →
       VCL_DISPATCH 0 Scenario.first Scenario.others f
         VCL_DISPATCHER_IMPLEMENTATION
       = (Returned e,
          {| vcl_fun_ptr := resolved (fn Scenario.D);
             trace := [Detect 0; Select (fn Scenario.D);
                       Store (fn Scenario.D); Forward e] |})).
Proof.
  split_and!.
  - intros x. apply VCL_DISPATCH_never_raises.
  - by destruct f.
  - by intros e ->.
Qed.

(** ** The selection on packs that hold null pointers

    The templates accept any pack of pointers.  The packs that
    [VCL_FUNLIST] makes hold no null pointer; the lemmas below say what the two
    overloads compute on the others. *)

Section ArbitraryPacks.
Context {EntryPoint : Type}.
Implicit Types (n i j : Z) (e : EntryPoint) (f g : fptr EntryPoint).
Implicit Types (rest pre post body : list (Z * fptr EntryPoint)).

(** A non-null result of the recursion is handed on by every enclosing
    instance. *)
Lemma vcl_select_prefix n pre i f rest j g post :
  (i, f) :: rest = pre ++ (j, g) :: post →
  to_bool (vcl_select n j g post) = true →
  vcl_select n i f rest = vcl_select n j g post.
Proof.
  revert i f rest. induction pre as [|x pre IH]; intros i f rest Heq Hg.
  - by injection Heq as -> -> ->.
  - injection Heq as <- ->. destruct pre as [|[i' f'] pre'].
    + simpl. by rewrite Hg.
    + specialize (IH i' f' (pre' ++ (j, g) :: post) eq_refl Hg).
      change (((i', f') :: pre') ++ (j, g) :: post)
        with ((i', f') :: (pre' ++ (j, g) :: post)).
      cbn [vcl_select]. by rewrite IH, Hg.
Qed.

Lemma vcl_select_skipped n i f rest body j :
  (i, f) :: rest = body ++ [(j, nullptr)] →
  Forall (skipped n) body →
  vcl_select n i f rest = nullptr.
Proof.
  revert i f body. induction rest as [|[i' f'] rest IH]; intros i f body Heq Hbody.
  - destruct body as [|x [|y body]]; [|done|done]. by injection Heq as -> ->.
  - destruct body as [|x body]; [by destruct rest|].
    injection Heq as <- Heq. apply Forall_cons in Hbody as [Hx Hbody].
    simpl. rewrite (IH i' f' body Heq Hbody). simpl.
    destruct Hx as [Hx|Hx]; simpl in Hx.
    + by rewrite (proj2 (Z.leb_gt _ _) Hx).
    + rewrite Hx. by destruct (i <=? n)%Z.
Qed.

(** X1: whatever the pack holds, the pointer that [vcl_select] returns is the
    null pointer or one of the pointers of the pack. *)
Theorem vcl_select_null_or_member n i f rest :
  vcl_select n i f rest = nullptr
  ∨ ∃ j, (j, vcl_select n i f rest) ∈ (i, f) :: rest.
Proof.
  revert i f. induction rest as [|[i' f'] rest IH]; intros i f; simpl.
  - right. exists i. apply list_elem_of_here.
  - destruct (to_bool (vcl_select n i' f' rest)) eqn:Hg.
    + destruct (IH i' f') as [Hnull|[j Hj]]; [by rewrite Hnull in Hg|].
      right. exists j. by apply list_elem_of_further.
    + destruct (i <=? n)%Z; [|by left].
      right. exists i. apply list_elem_of_here.
Qed.

(** X2: when the last pointer of the pack is not null, [vcl_select] returns
    it, for every detected level and whatever the other entries are. *)
Theorem vcl_select_last_nonnull n i f rest j e :
  last ((i, f) :: rest) = Some (j, fn e) →
  vcl_select n i f rest = fn e.
Proof.
  intros [pre Hpre]%last_Some.
  by rewrite (vcl_select_prefix n pre i f rest j (fn e) [] Hpre eq_refl).
Qed.

Lemma vcl_select_found n i f rest pre j e post k :
  (i, f) :: rest = pre ++ (j, fn e) :: post ++ [(k, nullptr)] →
  (j ≤ n)%Z → Forall (skipped n) post →
  vcl_select n i f rest = fn e.
Proof.
  intros Heq Hj Hpost.
  assert (vcl_select n j (fn e) (post ++ [(k, nullptr)]) = fn e) as Hsel.
  { destruct (post ++ [(k, nullptr)]) as [|[i' f'] rest'] eqn:Hrest.
    - by destruct post.
    - simpl. rewrite (vcl_select_skipped n i' f' rest' post k); [|done|done].
      simpl. by rewrite (proj2 (Z.leb_le _ _) Hj). }
  rewrite (vcl_select_prefix n pre i f rest j (fn e) _ Heq); by rewrite Hsel.
Qed.

(** X3: when the last pointer of the pack is null, the comparison with the
    detected level decides.  [vcl_select] returns the pointer of the entry
    closest to the end whose level is [<= n] and whose pointer is not null,
    and the null pointer when the pack has no such entry. *)
Theorem vcl_select_null_terminated n i f rest body k :
  (i, f) :: rest = body ++ [(k, nullptr)] →
  (∀ pre j e post,
     body = pre ++ (j, fn e) :: post → (j ≤ n)%Z → Forall (skipped n) post →
     vcl_select n i f rest = fn e)
  ∧ (Forall (skipped n) body → vcl_select n i f rest = nullptr).
Proof.
  intros Heq. split.
  - intros pre j e post -> Hj Hpost.
    rewrite <-app_assoc in Heq. simpl in Heq.
    by apply (vcl_select_found n i f rest pre j e post k).
  - intros Hbody. by apply (vcl_select_skipped n i f rest body k).
Qed.

Lemma ascending_sorted (l : list Z) :
  ascending l = true → StronglySorted Z.lt l.
Proof.
  intros Hl. apply Sorted_StronglySorted; [apply Z.lt_strorder|].
  induction l as [|a [|b l] IH]; simpl in Hl.
  - constructor.
  - repeat constructor.
  - apply andb_prop in Hl as [Hab Hl]. constructor; [by apply IH|].
    constructor. by apply Z.ltb_lt.
Qed.

(** The entries that a host of level [n] supports are a prefix of an
    ascending variant list. *)
Lemma ascending_split n (V : VariantList EntryPoint) :
  StronglySorted Z.lt (V.*1) →
  ∃ A B, V = A ++ B
         ∧ Forall (λ x, (x.1 ≤ n)%Z) A ∧ Forall (λ x, (n < x.1)%Z) B.
Proof.
  induction V as [|x V IH]; intros Hsorted.
  - by exists [], [].
  - rewrite fmap_cons in Hsorted. apply StronglySorted_cons in Hsorted as [Hx HV].
    destruct (Z_le_gt_dec x.1 n) as [Hle|Hgt].
    + destruct (IH HV) as (A & B & -> & HA & HB).
      exists (x :: A), B. split_and!; [done| |done]. by constructor.
    + exists [], (x :: V). split_and!; [done|constructor|].
      constructor; [lia|]. rewrite Forall_fmap in Hx.
      eapply Forall_impl; [exact Hx|]. simpl. intros y Hy. lia.
Qed.

Lemma VCL_FUNLIST_skipped n (B : VariantList EntryPoint) :
  Forall (λ x, (n < x.1)%Z) B → Forall (skipped n) (VCL_FUNLIST B).
Proof.
  intros HB. apply Forall_fmap. eapply Forall_impl; [exact HB|].
  intros x Hx. by left.
Qed.

(** X4: a variant list of implementations, ascending, followed by one null
    pointer.  On this pack [vcl_select] returns the implementation of the
    greatest level [<= n] when the list has a level [<= n], and the null
    pointer when the host is below every level of the list. *)
Theorem vcl_select_null_terminated_greatest n (V : VariantList EntryPoint) k i f rest :
  (i, f) :: rest = VCL_FUNLIST V ++ [(k, nullptr)] →
  ascending_variants V = true →
  ((∃ x, x ∈ V ∧ (x.1 ≤ n)%Z) →
     ∃ x0, x0 ∈ V ∧ (x0.1 ≤ n)%Z
           ∧ vcl_select n i f rest = fn x0.2
           ∧ ∀ x, x ∈ V → (x.1 ≤ n)%Z → (x.1 ≤ x0.1)%Z)
  ∧ ((∀ x, x ∈ V → (n < x.1)%Z) → vcl_select n i f rest = nullptr).
Proof.
  intros Heq Hasc. apply ascending_sorted in Hasc. split.
  - intros (x & Hx & Hxn).
    destruct (ascending_split n V Hasc) as (A & B & -> & HA & HB).
    destruct A as [|x0 A _] using rev_ind.
    { simpl in Hx. rewrite Forall_forall in HB. specialize (HB x Hx). lia. }
    apply Forall_app in HA as [HA Hx0]. rewrite Forall_singleton in Hx0.
    exists x0. split_and!.
    + apply elem_of_app. left. apply elem_of_app. right. apply list_elem_of_here.
    + exact Hx0.
    + apply (vcl_select_found n i f rest (VCL_FUNLIST A) x0.1 x0.2
               (VCL_FUNLIST B) k); [|exact Hx0|by apply VCL_FUNLIST_skipped].
      rewrite Heq. unfold VCL_FUNLIST. rewrite !fmap_app. simpl.
      by rewrite <-!app_assoc.
    + intros y Hy Hyn. rewrite <-app_assoc in Hy, Hasc.
      apply elem_of_app in Hy as [Hy|Hy].
      * rewrite fmap_app in Hasc.
        apply Z.lt_le_incl.
        apply (StronglySorted_app_1_elem_of _ _ _ _ _ Hasc).
        -- by apply list_elem_of_fmap_2.
        -- simpl. apply list_elem_of_here.
      * apply elem_of_cons in Hy as [->|Hy]; [lia|].
        rewrite Forall_forall in HB. specialize (HB y Hy). lia.
  - intros Hall. apply (vcl_select_skipped n i f rest (VCL_FUNLIST V) k Heq).
    apply VCL_FUNLIST_skipped. by apply Forall_forall.
Qed.

End ArbitraryPacks.

Lemma vcl_select_last_nonnull_witness :
  last [(2, fn Scenario.A); (5, nullptr); (8, fn Scenario.C)]%Z
  = Some (8%Z, fn Scenario.C)
  ∧ vcl_select 0 2 (fn Scenario.A) [(5, nullptr); (8, fn Scenario.C)]%Z
    = fn Scenario.C.
Proof.
  split; [reflexivity|].
  apply (vcl_select_last_nonnull 0 2 (fn Scenario.A)
           [(5, nullptr); (8, fn Scenario.C)]%Z 8 Scenario.C).
  reflexivity.
Defined.

Lemma vcl_select_null_terminated_witness :
  (2%Z, fn Scenario.A) :: VCL_FUNLIST Scenario.others ++ [(0%Z, nullptr)]
  = VCL_FUNLIST Scenario.V ++ [(0%Z, nullptr)]
  ∧ (∀ pre j e post,
       VCL_FUNLIST Scenario.V = pre ++ (j, fn e) :: post →
       (j ≤ 7)%Z → Forall (skipped 7) post →
       vcl_select 7 2 (fn Scenario.A)
         (VCL_FUNLIST Scenario.others ++ [(0%Z, nullptr)]) = fn e)
  ∧ (Forall (skipped 7) (VCL_FUNLIST Scenario.V) →
     vcl_select 7 2 (fn Scenario.A)
       (VCL_FUNLIST Scenario.others ++ [(0%Z, nullptr)]) = nullptr).
Proof.
  split; [reflexivity|].
  apply (vcl_select_null_terminated 7 2 (fn Scenario.A)
           (VCL_FUNLIST Scenario.others ++ [(0%Z, nullptr)])
           (VCL_FUNLIST Scenario.V) 0).
  reflexivity.
Defined.

Lemma vcl_select_null_terminated_greatest_witness :
  (2%Z, fn Scenario.A) :: VCL_FUNLIST Scenario.others ++ [(0%Z, nullptr)]
  = VCL_FUNLIST Scenario.V ++ [(0%Z, nullptr)]
  ∧ ascending_variants Scenario.V = true
  ∧ ((∃ x, x ∈ Scenario.V ∧ (x.1 ≤ 7)%Z) →
       ∃ x0, x0 ∈ Scenario.V ∧ (x0.1 ≤ 7)%Z
             ∧ vcl_select 7 2 (fn Scenario.A)
                 (VCL_FUNLIST Scenario.others ++ [(0%Z, nullptr)]) = fn x0.2
             ∧ ∀ x, x ∈ Scenario.V → (x.1 ≤ 7)%Z → (x.1 ≤ x0.1)%Z).
Proof.
  split; [reflexivity|]. split; [reflexivity|].
  apply (vcl_select_null_terminated_greatest 7 Scenario.V 0 2 (fn Scenario.A)
           (VCL_FUNLIST Scenario.others ++ [(0%Z, nullptr)]));
    reflexivity.
Defined.

Example vcl_select_null_terminated_scenario :
  vcl_select 7 2 (fn Scenario.A)
    (VCL_FUNLIST Scenario.others ++ [(0%Z, nullptr)]) = fn Scenario.B
  ∧ vcl_select 1 2 (fn Scenario.A)
      (VCL_FUNLIST Scenario.others ++ [(0%Z, nullptr)]) = nullptr.
Proof. split; reflexivity. Qed.

(** ** Concurrent first calls *)

Section ConcurrentCalls.
Context {EntryPoint : Type}.
Variable instrset_detect : Z.
Variable v : Z * EntryPoint.
Variable vs : VariantList EntryPoint.
Variable f : fptr EntryPoint.
Implicit Types (σ : process EntryPoint) (c : config EntryPoint).
Implicit Types (t u : thread EntryPoint) (s : slot_value EntryPoint).

(** Replacing one element of a list while lowering the weight of the
    others. *)
Lemma sum_list_with_insert_le {A} (w w' : A → nat) (l : list A) k x y :
  l !! k = Some x →
  (∀ z, w' z ≤ w z) →
  ∃ r r',
    sum_list_with w l = r + w x
    ∧ sum_list_with w' (<[k:=y]> l) = r' + w' y
    ∧ r' ≤ r.
Proof.
  intros Hk Hw. revert k Hk.
  induction l as [|z l IH]; intros [|k] Hk; simplify_eq/=.
  - exists (sum_list_with w l), (sum_list_with w' l). split_and!; [lia|lia|].
    clear IH. induction l as [|z l IH]; simpl; [lia|].
    specialize (Hw z). lia.
  - destruct (IH k Hk) as (r & r' & -> & -> & Hr).
    exists (w z + r), (w' z + r'). specialize (Hw z). lia.
Qed.

Lemma pending_resolved_le s g t : pending (resolved g) t ≤ pending s t.
Proof. destruct t as [|[|?]| |], s; simpl; lia. Qed.

Lemma selections_snoc_Store σ g s :
  selections {| vcl_fun_ptr := s; trace := trace σ ++ [Store g] |}
  = selections σ.
Proof.
  unfold selections. simpl. rewrite filter_app, length_app. simpl. lia.
Qed.

(** What one statement of a thread does to the account. *)
Lemma thread_step_count σ t σ' t' :
  thread_step instrset_detect v vs f σ t = Some (σ', t') →
  (is_resolved (vcl_fun_ptr σ) = false → past_store t = false) →
  selections σ' + pending (vcl_fun_ptr σ') t'
    ≤ selections σ + pending (vcl_fun_ptr σ) t
  ∧ (∀ u, pending (vcl_fun_ptr σ') u ≤ pending (vcl_fun_ptr σ) u)
  ∧ (is_resolved (vcl_fun_ptr σ') = false →
     is_resolved (vcl_fun_ptr σ) = false
     ∧ past_store t' = false
     ∧ (Forall (λ ev, is_entry ev = false) (trace σ) →
        Forall (λ ev, is_entry ev = false) (trace σ'))).
Proof.
  intros Hstep Hflag.
  destruct t as [|[|g]|g|g]; simpl in Hstep.
  - injection Hstep as <- <-. split_and!; [|done|].
    + destruct (vcl_fun_ptr σ); simpl; lia.
    + intros Hres. rewrite Hres. split_and!; [done| |done].
      by destruct (vcl_fun_ptr σ).
  - injection Hstep as <- <-. split_and!; [|done|].
    + rewrite selections_emit. simpl. lia.
    + intros Hres. split_and!; [done|done|]. intros Htr. simpl.
      apply Forall_app. split; [done|]. by repeat constructor.
  - destruct g as [|e]; [done|]. injection Hstep as <- <-.
    destruct (is_resolved (vcl_fun_ptr σ)) eqn:Hres;
      [|by specialize (Hflag eq_refl)].
    simpl. rewrite Hres. split_and!; [|done|done].
    rewrite selections_emit. simpl. lia.
  - injection Hstep as <- <-. simpl. split_and!; [|apply pending_resolved_le|done].
    rewrite selections_snoc_Store. lia.
  - apply enter_f_Some in Hstep as (e & Hf & -> & ->).
    destruct (is_resolved (vcl_fun_ptr σ)) eqn:Hres;
      [|by specialize (Hflag eq_refl)].
    simpl. rewrite Hres. split_and!; [|done|done].
    rewrite selections_emit. simpl. lia.
Qed.

Lemma sched_step_count N c k c' :
  sched_step instrset_detect v vs f c k = Some c' →
  inv_count N c → inv_count N c'.
Proof.
  unfold sched_step. intros Hstep (Hsum & Hflag).
  destruct (pool c !! k) as [t|] eqn:Hk; [|done]. simpl in Hstep.
  destruct (thread_step _ _ _ _ _ t) as [[σ t']|] eqn:Ht; [|done].
  injection Hstep as <-.
  destruct (thread_step_count _ _ _ _ Ht) as (Hle & Hmono & Hflag').
  { intros Hres. destruct (Hflag Hres) as [Hpool _].
    by apply (Forall_lookup_1 _ _ _ _ Hpool Hk). }
  split; simpl.
  - destruct (sum_list_with_insert_le
                (pending (vcl_fun_ptr (shared c))) (pending (vcl_fun_ptr σ))
                (pool c) k t t' Hk Hmono) as (r & r' & Hr & Hr' & Hle').
    rewrite Hr in Hsum. rewrite Hr'. lia.
  - intros Hres. destruct (Hflag' Hres) as (Hres0 & Ht' & Htr).
    destruct (Hflag Hres0) as [Hpool Htr0]. split; [|by apply Htr].
    by apply Forall_insert.
Qed.

Lemma inv_count_start N : inv_count N (start (EntryPoint := EntryPoint) N).
Proof.
  split; simpl.
  - unfold selections. simpl.
    assert (sum_list_with (pending (dispatcher (EntryPoint := EntryPoint)))
              (replicate N Outside) = N) as ->; [|lia].
    induction N as [|N IH]; simpl; [done|]. by rewrite IH.
  - intros _. split; [|constructor]. by apply Forall_replicate.
Qed.

Lemma run_count N sched c c' :
  run instrset_detect v vs f sched c = Some c' →
  inv_count N c → inv_count N c'.
Proof.
  revert c. induction sched as [|k sched IH]; intros c; simpl.
  - by intros [= <-].
  - destruct (sched_step _ _ _ _ c k) as [c1|] eqn:Hk; [|done]. simpl.
    intros Hrun Hinv. apply (IH c1 Hrun). by apply (sched_step_count N c k).
Qed.

(** X5: when the name [f] of the dispatcher resolves to a function, a
    process with [N] threads can follow every schedule of its threads to the
    end: no thread ever calls through a null pointer, however the statements
    of the threads interleave.  In particular the wrapper never finds a null
    pointer in the slot. *)
Theorem threads_never_call_null N sched :
  to_bool f = true →
  Forall (λ k, k < N) sched →
  ∃ c, run instrset_detect v vs f sched (start N) = Some c.
Proof.
  intros Hf Hsched. apply run_defined; [done|apply inv_start|].
  simpl. by rewrite length_replicate.
Qed.

(** X6: in every configuration that a process with [N] threads reaches, every
    call that the wrapper has made through the slot has entered the
    implementation [e] that the selection returns for the level of the host,
    by whichever thread and in whichever order; the forwarding calls of the
    dispatcher have entered the function that [f] names; and once any of the
    two has been entered the slot holds [e]. *)
Theorem concurrent_calls_enter_selected N sched c :
  run instrset_detect v vs f sched (start N) = Some c →
  ∃ e,
    select instrset_detect v vs = fn e
    ∧ (∀ e', Invoke e' ∈ trace (shared c) → e' = e)
    ∧ (∀ e', Forward e' ∈ trace (shared c) → f = fn e')
    ∧ ((∃ ev, ev ∈ trace (shared c) ∧ is_entry ev = true) →
       vcl_fun_ptr (shared c) = resolved (fn e)).
Proof.
  intros Hrun.
  destruct (run_inv _ _ _ _ _ _ _ Hrun (inv_start _ _ _ _ N)) as (Hslot & _ & Htr).
  destruct (run_count N _ _ _ Hrun (inv_count_start N)) as (_ & Hflag).
  destruct (selected_fn instrset_detect v vs) as (x & _ & Hsel).
  exists x.2. rewrite Forall_forall in Htr. split_and!; [done| | |].
  - intros e' He'. specialize (Htr _ He'). simpl in Htr.
    rewrite Hsel in Htr. by injection Htr.
  - intros e' He'. by specialize (Htr _ He').
  - intros (ev & Hev & Hentry).
    destruct Hslot as [Hdisp|Hres]; [|by rewrite Hres, Hsel].
    rewrite Hdisp in Hflag. destruct (Hflag eq_refl) as [_ Hno].
    rewrite Forall_forall in Hno. specialize (Hno _ Hev). congruence.
Qed.

(** X7: in every configuration that a process with [N] threads reaches, the
    selection has run at most [N] times: a thread runs it at most once,
    when it has loaded the slot before any thread has written it. *)
Theorem selections_at_most_threads N sched c :
  run instrset_detect v vs f sched (start N) = Some c →
  selections (shared c) ≤ N.
Proof.
  intros Hrun.
  destruct (run_count N _ _ _ Hrun (inv_count_start N)) as (Hsum & _). lia.
Qed.

(** X18: a call never waits and never retries.  When the name [f] of the
    dispatcher resolves to a function [e0], then in every configuration that
    a process with [N] threads reaches, a thread that is outside of the
    logical function and then runs alone finishes its call in two statements
    when the slot is resolved, entering the selected implementation through
    the slot, and in four when it is not, entering [e0] from the dispatcher;
    either way the call leaves the selected implementation in the slot and
    leaves the other threads as they were. *)
Theorem call_completes_in_own_steps N sched c k e0 :
  f = fn e0 →
  run instrset_detect v vs f sched (start N) = Some c →
  pool c !! k = Some Outside →
  ∃ c' e,
    run instrset_detect v vs f
      (replicate (if is_resolved (vcl_fun_ptr (shared c)) then 2 else 4) k) c
    = Some c'
    ∧ pool c' = pool c
    ∧ select instrset_detect v vs = fn e
    ∧ last (trace (shared c'))
      = Some (if is_resolved (vcl_fun_ptr (shared c))
              then Invoke e else Forward e0)
    ∧ vcl_fun_ptr (shared c') = resolved (fn e).
Proof.
  intros Hf Hrun Hk.
  destruct (run_inv _ _ _ _ _ _ _ Hrun (inv_start _ _ _ _ N)) as (Hslot & _ & _).
  destruct (selected_fn instrset_detect v vs) as (x & _ & Hsel).
  pose proof (lookup_lt_Some _ _ _ Hk) as Hlen.
  destruct c as [σ ps]. simpl in *. unfold slot_ok in Hslot. rewrite Hsel in Hslot.
  destruct Hslot as [Hslot|Hslot]; rewrite Hslot; simpl;
    eexists _, x.2; unfold sched_step; simpl.
  - rewrite Hk. simpl. rewrite Hslot. simpl.
    rewrite list_lookup_insert_eq by done. simpl. rewrite Hsel. simpl.
    rewrite list_insert_insert_eq, list_lookup_insert_eq by done. simpl.
    rewrite list_insert_insert_eq, list_lookup_insert_eq by done. simpl.
    unfold enter_f. rewrite Hf. simpl.
    rewrite list_insert_insert_eq, (list_insert_id _ _ _ Hk).
    split_and!; [done|done|done| |done].
    simpl. by rewrite last_snoc.
  - rewrite Hk. simpl. rewrite Hslot. simpl.
    rewrite list_lookup_insert_eq by done. simpl.
    rewrite list_insert_insert_eq, (list_insert_id _ _ _ Hk).
    split_and!; [done|done|done| |done].
    simpl. by rewrite last_snoc.
Qed.

End ConcurrentCalls.

Lemma threads_never_call_null_witness :
  to_bool (fn Scenario.A) = true
  ∧ Forall (λ k, k < 2) Scenario.race
  ∧ ∃ c, run 7 Scenario.first Scenario.others (fn Scenario.A) Scenario.race
           (start 2) = Some c.
Proof.
  assert (Forall (λ k, k < 2) Scenario.race) as Hsched.
  { unfold Scenario.race. repeat constructor. }
  split; [reflexivity|]. split; [exact Hsched|].
  exact (threads_never_call_null 7 Scenario.first Scenario.others
           (fn Scenario.A) 2 Scenario.race eq_refl Hsched).
Defined.

Lemma concurrent_calls_enter_selected_witness :
  run 7 Scenario.first Scenario.others (fn Scenario.A) ScenarioCalls.schedule
    (start 2)
  = Some ScenarioCalls.reached
  ∧ ∃ e,
      select 7 Scenario.first Scenario.others = fn e
      ∧ (∀ e', Invoke e' ∈ trace (shared ScenarioCalls.reached) → e' = e)
      ∧ (∀ e', Forward e' ∈ trace (shared ScenarioCalls.reached) →
           fn Scenario.A = fn e')
      ∧ ((∃ ev, ev ∈ trace (shared ScenarioCalls.reached)
                ∧ is_entry ev = true) →
         vcl_fun_ptr (shared ScenarioCalls.reached) = resolved (fn e)).
Proof.
  split; [reflexivity|].
  apply (concurrent_calls_enter_selected 7 Scenario.first Scenario.others
           (fn Scenario.A) 2 ScenarioCalls.schedule ScenarioCalls.reached).
  reflexivity.
Defined.

Lemma selections_at_most_threads_witness :
  run 7 Scenario.first Scenario.others (fn Scenario.A) Scenario.race (start 2)
  = Some Scenario.after_race
  ∧ selections (shared Scenario.after_race) ≤ 2.
Proof.
  split; [reflexivity|].
  apply (selections_at_most_threads 7 Scenario.first Scenario.others
           (fn Scenario.A) 2 Scenario.race Scenario.after_race).
  reflexivity.
Defined.

(** ** The macros that build the dispatcher *)

Section MacroFacts.
Implicit Types (F : string) (a n : token) (va : list token).
Implicit Types (lo host INSTRSET : Z) (ls : list Z).

Lemma VCL_COUNT_ARGS_up_to_11 a va :
  length va ≤ 10 →
  VCL_COUNT_ARGS a va = Some (lit (Z.of_nat (S (length va)))).
Proof.
  intros Hlen.
  do 11 (destruct va as [|? va]; [reflexivity|]).
  simpl in Hlen. lia.
Qed.

Lemma VCL_COUNT_ARGS_from_12 a va :
  11 ≤ length va → VCL_COUNT_ARGS a va = va !! 10.
Proof.
  intros Hlen.
  do 11 (destruct va as [|? va]; [simpl in Hlen; lia|]).
  reflexivity.
Qed.

(** A numbered macro called with as many arguments as its number. *)
Lemma VCL_FUNLIST_k_exact F n va :
  VCL_FUNLIST_k (S (length va)) F n va = Some (VCL_CONCAT F <$> n :: va).
Proof.
  revert n. induction va as [|x va IH]; intros n; [done|].
  change (VCL_FUNLIST_k (S (length (x :: va))) F n (x :: va))
    with (cons (VCL_CONCAT F n) <$> VCL_FUNLIST_k (S (length va)) F x va).
  by rewrite IH.
Qed.

(** A numbered macro called with more arguments than its number. *)
Lemma VCL_FUNLIST_k_too_many k F n va :
  1 ≤ k ≤ length va → VCL_FUNLIST_k k F n va = None.
Proof.
  revert n va. induction k as [|k IH]; intros n va Hk; [lia|].
  destruct va as [|x va]; [simpl in Hk; lia|].
  destruct k as [|k]; [done|].
  change (VCL_FUNLIST_k (S (S k)) F n (x :: va))
    with (cons (VCL_CONCAT F n) <$> VCL_FUNLIST_k (S k) F x va).
  rewrite IH; [done|]. simpl in Hk. lia.
Qed.

Lemma mapM_literal_lit ls : mapM literal (lit <$> ls) = Some ls.
Proof. apply mapM_Some. induction ls; by constructor. Qed.

Lemma zip_levels_names F ls :
  zip ls (VCL_CONCAT F <$> (lit <$> ls))
  = (λ x, (x, VCL_DISPATCHED F x)) <$> ls.
Proof. induction ls as [|x ls IH]; [done|]. csimpl. by rewrite IH. Qed.

Lemma VCL_DISPATCHER_IMPLEMENTATION_variants_up_to_11 F lo ls :
  length ls ≤ 10 →
  VCL_DISPATCHER_IMPLEMENTATION_variants F (lit lo) (lit <$> ls)
  = Some ((λ x, (x, VCL_DISPATCHED F x)) <$> lo :: ls).
Proof.
  intros Hlen. unfold VCL_DISPATCHER_IMPLEMENTATION_variants.
  rewrite VCL_COUNT_ARGS_up_to_11 by by rewrite length_fmap.
  cbn [mbind option_bind VCL_FUNLIST_]. rewrite length_fmap.
  rewrite bool_decide_eq_true_2 by lia.
  rewrite Nat2Z.id. rewrite <-(length_fmap lit ls) at 1.
  rewrite VCL_FUNLIST_k_exact. cbn [mbind option_bind].
  change (mapM literal (lit lo :: (lit <$> ls)))
    with (mapM literal (lit <$> lo :: ls)).
  rewrite mapM_literal_lit. cbn [mbind option_bind].
  rewrite bool_decide_eq_true_2 by (simpl; by rewrite !length_fmap).
  change (VCL_CONCAT F <$> lit lo :: (lit <$> ls))
    with (VCL_CONCAT F <$> (lit <$> lo :: ls)).
  by rewrite zip_levels_names.
Qed.

(** X8: [VCL_COUNT_ARGS] counts its arguments when they are one to eleven:
    the result is the literal of their number. *)
Theorem VCL_COUNT_ARGS_counts a va :
  length va ≤ 10 →
  VCL_COUNT_ARGS a va = Some (lit (Z.of_nat (length (a :: va)))).
Proof. apply VCL_COUNT_ARGS_up_to_11. Qed.

(** X9: with twelve or more instruction sets [VCL_COUNT_ARGS] does not count:
    its result is the twelfth instruction set of the list itself, and
    [VCL_DISPATCHER_IMPLEMENTATION] does not expand to an instantiation of the
    dispatcher. *)
Theorem VCL_INSTRSETS_at_most_11 F a va :
  11 ≤ length va →
  VCL_COUNT_ARGS a va = (a :: va) !! 11
  ∧ VCL_DISPATCHER_IMPLEMENTATION_variants F a va = None.
Proof.
  intros Hlen. pose proof (VCL_COUNT_ARGS_from_12 a va Hlen) as Hcount.
  split; [done|]. unfold VCL_DISPATCHER_IMPLEMENTATION_variants.
  destruct (VCL_COUNT_ARGS a va) as [[k|]|]; [|done|done].
  cbn [mbind option_bind VCL_FUNLIST_].
  destruct (bool_decide (1 ≤ k ≤ 11)%Z) eqn:Hk; [|done].
  apply bool_decide_eq_true_1 in Hk.
  rewrite VCL_FUNLIST_k_too_many; [done|lia].
Qed.

(** X10: for one to eleven instruction sets [lo :: ls],
    [VCL_DISPATCHER_IMPLEMENTATION] instantiates the dispatcher with one
    implementation for each instruction set, in the order of the list: each
    level [x] comes with the function that [VCL_DISPATCHED] names in the unit
    compiled with [INSTRSET == x]. *)
Theorem VCL_DISPATCHER_IMPLEMENTATION_pairs F lo ls :
  length ls ≤ 10 →
  VCL_DISPATCHER_IMPLEMENTATION_variants F (lit lo) (lit <$> ls)
  = Some ((λ x, (x, VCL_DISPATCHED F x)) <$> lo :: ls).
Proof. apply VCL_DISPATCHER_IMPLEMENTATION_variants_up_to_11. Qed.

(** X11: of the units compiled for the instruction sets of an ascending
    [VCL_INSTRSETS], one for each, exactly one defines the slot and the
    dispatcher: the unit of the first, lowest instruction set. *)
Theorem dispatcher_in_lowest_unit_only lo ls :
  ascending (lo :: ls) = true →
  filter
    (λ INSTRSET,
       VCL_DISPATCHER_IMPLEMENTED_HERE INSTRSET (lit lo) (lit <$> ls) = Some true)
    (lo :: ls)
  = [lo].
Proof.
  intros Hasc%ascending_sorted. apply StronglySorted_cons in Hasc as [Hlt _].
  rewrite filter_cons_True
    by (unfold VCL_DISPATCHER_IMPLEMENTED_HERE; simpl;
        by rewrite bool_decide_eq_true_2).
  f_equal. induction Hlt as [|x ls Hx Hls IH]; [done|].
  rewrite filter_cons_False; [done|].
  unfold VCL_DISPATCHER_IMPLEMENTED_HERE. simpl.
  rewrite bool_decide_eq_false_2; [done|lia].
Qed.

(** X12: a program built for one to eleven instruction sets [lo :: ls], in
    which the name [f] of the dispatcher resolves to a function [e0].  The
    first call of the logical function returns from [e0]; it leaves in the
    slot the implementation of the unit compiled for the last instruction set
    of the list, and every later call returns from that implementation;
    all of this whatever the level [host] that [instrset_detect] reports. *)
Theorem later_calls_run_last_unit F lo ls host (e0 : name) k :
  length ls ≤ 10 →
  ∃ σ,
    program_calls F (lit lo) (lit <$> ls) host (fn e0) (S k)
    = Some (Returned e0
              :: replicate k (Returned (VCL_DISPATCHED F (default lo (last ls)))),
            σ)
    ∧ vcl_fun_ptr σ = resolved (fn (VCL_DISPATCHED F (default lo (last ls)))).
Proof.
  intros Hlen. unfold program_calls.
  rewrite VCL_DISPATCHER_IMPLEMENTATION_variants_up_to_11 by done.
  cbn [mbind option_bind fmap list_fmap calls].
  destruct (select_elem_of host (lo, VCL_DISPATCHED F lo)
              ((λ x, (x, VCL_DISPATCHED F x)) <$> ls)) as (x & _ & Hlast & Hsel).
  change ((lo, VCL_DISPATCHED F lo) :: ((λ x, (x, VCL_DISPATCHED F x)) <$> ls))
    with ((λ x, (x, VCL_DISPATCHED F x)) <$> (lo :: ls)) in Hlast.
  rewrite fmap_last, last_cons in Hlast.
  assert (x.2 = VCL_DISPATCHED F (default lo (last ls))) as Hx.
  { destruct (last ls) as [y|]; simpl in *; by injection Hlast as <-. }
  rewrite Hx in Hsel.
  rewrite (VCL_DISPATCH_first host _ _ (fn e0) VCL_DISPATCHER_IMPLEMENTATION
             _ eq_refl Hsel).
  cbn [forward].
  rewrite (calls_resolved host _ _ (fn e0) k _
             (VCL_DISPATCHED F (default lo (last ls)))) by done.
  eexists. split; [reflexivity|done].
Qed.

End MacroFacts.

Lemma VCL_COUNT_ARGS_counts_witness :
  length [lit 5; lit 8; lit 10] ≤ 10
  ∧ VCL_COUNT_ARGS (lit 2) [lit 5; lit 8; lit 10] = Some (lit 4).
Proof.
  split; [simpl; lia|].
  apply (VCL_COUNT_ARGS_counts (lit 2) [lit 5; lit 8; lit 10]). simpl. lia.
Defined.

Lemma VCL_INSTRSETS_at_most_11_witness :
  11 ≤ length (lit <$> [1; 2; 3; 4; 5; 6; 7; 8; 9; 10; 11]%Z)
  ∧ VCL_COUNT_ARGS (lit 0) (lit <$> [1; 2; 3; 4; 5; 6; 7; 8; 9; 10; 11]%Z)
    = (lit 0 :: (lit <$> [1; 2; 3; 4; 5; 6; 7; 8; 9; 10; 11]%Z)) !! 11
  ∧ VCL_DISPATCHER_IMPLEMENTATION_variants "myfunc" (lit 0)
      (lit <$> [1; 2; 3; 4; 5; 6; 7; 8; 9; 10; 11]%Z) = None.
Proof.
  split; [simpl; lia|].
  apply (VCL_INSTRSETS_at_most_11 "myfunc" (lit 0)
           (lit <$> [1; 2; 3; 4; 5; 6; 7; 8; 9; 10; 11]%Z)).
  simpl. lia.
Defined.

Lemma VCL_DISPATCHER_IMPLEMENTATION_pairs_witness :
  length [5; 8; 10]%Z ≤ 10
  ∧ VCL_DISPATCHER_IMPLEMENTATION_variants "myfunc" (lit 2) (lit <$> [5; 8; 10]%Z)
    = Some ((λ x, (x, VCL_DISPATCHED "myfunc" x)) <$> [2; 5; 8; 10]%Z).
Proof.
  split; [simpl; lia|].
  apply (VCL_DISPATCHER_IMPLEMENTATION_pairs "myfunc" 2 [5; 8; 10]%Z).
  simpl. lia.
Defined.

Lemma dispatcher_in_lowest_unit_only_witness :
  ascending [2; 5; 8; 10]%Z = true
  ∧ filter
      (λ INSTRSET,
         VCL_DISPATCHER_IMPLEMENTED_HERE INSTRSET (lit 2) (lit <$> [5; 8; 10]%Z)
         = Some true)
      [2; 5; 8; 10]%Z
    = [2%Z].
Proof.
  split; [reflexivity|].
  apply (dispatcher_in_lowest_unit_only 2 [5; 8; 10]%Z). reflexivity.
Defined.

Lemma later_calls_run_last_unit_witness :
  length [5; 8; 10]%Z ≤ 10
  ∧ ∃ σ,
      program_calls "myfunc" (lit 2) (lit <$> [5; 8; 10]%Z) 5
        (fn (VCL_DISPATCHED "myfunc" 2)) 3
      = Some ([Returned (VCL_DISPATCHED "myfunc" 2);
               Returned (VCL_DISPATCHED "myfunc" 10);
               Returned (VCL_DISPATCHED "myfunc" 10)], σ)
      ∧ vcl_fun_ptr σ = resolved (fn (VCL_DISPATCHED "myfunc" 10)).
Proof.
  split; [simpl; lia|].
  apply (later_calls_run_last_unit "myfunc" 2 [5; 8; 10]%Z 5
           (VCL_DISPATCHED "myfunc" 2) 2).
  simpl. lia.
Defined.

(** ** The vector types *)

Section VectorTypes.
Implicit Types (n k : N) (T : scalar) (s letters : string).
Implicit Types (table : list (N * scalar * string)).

Lemma specialisation_elem_of table n T s :
  NoDup (table.*1) →
  specialisation table n T = Some s ↔ (n, T, s) ∈ table.
Proof.
  unfold specialisation. intros Hnodup. split.
  - destruct (List.find _ table) as [[key s']|] eqn:Hfind; [|done].
    intros [= <-]. apply find_some in Hfind as [Hin Hkey].
    apply bool_decide_eq_true_1 in Hkey. simpl in Hkey. subst key.
    by apply list_elem_of_In.
  - induction table as [|[key s'] table IH]; intros Hin.
    + by apply elem_of_nil in Hin.
    + rewrite fmap_cons in Hnodup. apply NoDup_cons in Hnodup as [Hkey Hnodup].
      apply elem_of_cons in Hin as [[= <- <-]|Hin]; simpl.
      * by rewrite bool_decide_eq_true_2.
      * rewrite bool_decide_eq_false_2; [by apply IH|].
        intros ->. apply Hkey.
        by apply (list_elem_of_fmap_2 fst _ (n, T, s)).
Qed.

Lemma Vec_N_T_keys : NoDup (Vec_N_T_specialisations.*1).
Proof. apply (bool_decide_unpack _). by vm_compute. Qed.

Lemma Vec_N_b_keys : NoDup (Vec_N_b_specialisations.*1).
Proof. apply (bool_decide_unpack _). by vm_compute. Qed.

Lemma Vec_N_T_types : NoDup (Vec_N_T_specialisations.*2).
Proof. apply (bool_decide_unpack _). by vm_compute. Qed.

Lemma Vec_N_T_elem_of n T s :
  Vec_N_T n T = Some s ↔ (n, T, s) ∈ Vec_N_T_specialisations.
Proof. apply specialisation_elem_of, Vec_N_T_keys. Qed.

Lemma Vec_N_b_elem_of n T s :
  Vec_N_b n T = Some s ↔ (n, T, s) ∈ Vec_N_b_specialisations.
Proof. apply specialisation_elem_of, Vec_N_b_keys. Qed.

(** X13: [Vec<n, T>] names a class exactly when [T] is one of the ten element
    types and [n] elements of its width fill 128, 256 or 512 bits; for every
    other pair of arguments there is no specialisation. *)
Theorem Vec_defined_iff_full_register n T :
  is_Some (Vec n T)
  ↔ ∃ b, bits T = Some b ∧ (n * b = 128 ∨ n * b = 256 ∨ n * b = 512)%N.
Proof.
  unfold Vec. split.
  - intros [s Hs]. apply Vec_N_T_elem_of in Hs. rows Hs;
      (eexists; split; [reflexivity|]; vm_compute; tauto).
  - intros (b & Hb & Hn).
    destruct T; simplify_eq/=; destruct Hn as [Hn|[Hn|Hn]];
      match type of Hn with
      | (n * ?b = ?t)%N =>
          assert (n = t / b)%N as -> by (apply N.div_unique_exact; lia)
      end;
      eexists; vm_compute; reflexivity.
Qed.

(** X14: the name of the class follows from the alias that is used.  A
    wrapper [Vec_<letters><n>], when it names a class, names
    [Vec<n><letters>]; and a wrapper [Vec<k><T>], when it names a class, names
    one whose name starts with [Vec<k>]. *)
Theorem wrappers_name_the_class :
  (∀ letters alias n s,
     (letters, alias) ∈ type_wrappers → alias n = Some s →
     s = "Vec" +:+ pretty n +:+ letters)
  ∧ (∀ k alias T s,
       (k, alias) ∈ size_wrappers → alias T = Some s →
       String.prefix ("Vec" +:+ pretty k) s = true).
Proof.
  split.
  - intros letters alias n s Hw Hs.
    unfold type_wrappers, wrapper in Hw.
    repeat (apply elem_of_cons in Hw as [Hw|Hw]; [injection Hw as -> ->|]);
      [..|by apply elem_of_nil in Hw];
      apply Vec_N_T_elem_of in Hs; rows Hs; by vm_compute.
  - intros k alias T s Hw Hs.
    unfold size_wrappers in Hw.
    repeat (apply elem_of_cons in Hw as [Hw|Hw]; [injection Hw as -> ->|]);
      [..|by apply elem_of_nil in Hw];
      apply Vec_N_T_elem_of in Hs; rows Hs; by vm_compute.
Qed.

(** X15: [Vec_N_b] has a specialisation for exactly the arguments for which
    [Vec_N_T] has one; its class is the one of the signed element type of the
    same width with a [b] appended, so that a signed and an unsigned vector of
    the same shape share their boolean vector. *)
Theorem Vec_N_b_of_signed n T :
  Vec_N_b n T = (λ s, s +:+ "b") <$> Vec_N_T n (to_signed T).
Proof.
  destruct (Vec_N_b n T) as [s|] eqn:Hb.
  - apply Vec_N_b_elem_of in Hb. rows Hb; by vm_compute.
  - destruct (Vec_N_T n (to_signed T)) as [s|] eqn:Ht; [|done].
    apply Vec_N_T_elem_of in Ht.
    destruct T; simpl in Ht; rows Ht; by vm_compute in Hb.
Qed.

Lemma NoDup_snd_inj {A B} (l : list (A * B)) (x y : A) (z : B) :
  NoDup (l.*2) → (x, z) ∈ l → (y, z) ∈ l → x = y.
Proof.
  induction l as [|[x0 z0] l IH]; intros Hnd Hx Hy.
  - by apply elem_of_nil in Hx.
  - rewrite fmap_cons in Hnd. apply NoDup_cons in Hnd as [Hz0 Hnd].
    apply elem_of_cons in Hx as [Hx|Hx]; apply elem_of_cons in Hy as [Hy|Hy];
      simplify_eq/=.
    + done.
    + destruct Hz0. by apply (list_elem_of_fmap_2 snd _ (y, z0)).
    + destruct Hz0. by apply (list_elem_of_fmap_2 snd _ (x, z0)).
    + by apply IH.
Qed.

(** X16: two different pairs of arguments never give the same class: when
    [Vec<n, T>] and [Vec<n', T'>] name the same class, [n = n'] and
    [T = T']. *)
Theorem Vec_injective n T n' T' s :
  Vec n T = Some s → Vec n' T' = Some s → n = n' ∧ T = T'.
Proof.
  unfold Vec. intros H1%Vec_N_T_elem_of H2%Vec_N_T_elem_of.
  by injection (NoDup_snd_inj _ (n, T) (n', T') s Vec_N_T_types H1 H2).
Qed.

End VectorTypes.

Lemma Vec_injective_witness :
  Vec 8 int32_t = Some "Vec8i" ∧ Vec 8 int32_t = Some "Vec8i"
  ∧ 8%N = 8%N ∧ int32_t = int32_t.
Proof.
  split; [reflexivity|]. split; [reflexivity|].
  apply (Vec_injective 8 int32_t 8 int32_t "Vec8i"); reflexivity.
Defined.

(** ** The instruction sets by name *)

(** X17: the enumerators of [instrset] name the levels 0 to 10 and no other:
    every enumerator has a value from 0 to 10, every level from 0 to 10 is
    the value of an enumerator, and two different enumerators have the same
    value only at level 10, which the three AVX512 enumerators share. *)
Theorem instrset_values_0_to_10 :
  (∀ e, (0 ≤ instrset.value e ≤ 10)%Z)
  ∧ (∀ z, (0 ≤ z ≤ 10)%Z → ∃ e, instrset.value e = z)
  ∧ (∀ e1 e2, instrset.value e1 = instrset.value e2 → e1 ≠ e2 →
       instrset.value e1 = 10%Z).
Proof.
  split_and!.
  - intros []; simpl; lia.
  - intros z Hz.
    assert (z = 0 ∨ z = 1 ∨ z = 2 ∨ z = 3 ∨ z = 4 ∨ z = 5 ∨ z = 6 ∨ z = 7
            ∨ z = 8 ∨ z = 9 ∨ z = 10)%Z as Hcases by lia.
    destruct_or!; subst z;
      [by exists instrset.X386 | by exists instrset.SSE
      |by exists instrset.SSE2 | by exists instrset.SSE3
      |by exists instrset.SSSE3 | by exists instrset.SSE4_1
      |by exists instrset.SSE4_2 | by exists instrset.AVX
      |by exists instrset.AVX2 | by exists instrset.AVX512F
      |by exists instrset.AVX512VL].
  - intros [] []; simpl; intros Heq Hne; try done; try lia.
Qed.

Lemma call_completes_in_own_steps_witness :
  fn Scenario.A = fn Scenario.A
  ∧ run 7 Scenario.first Scenario.others (fn Scenario.A) [] (start 2)
    = Some (start 2)
  ∧ pool (start (EntryPoint := Scenario.impl) 2) !! 0 = Some Outside
  ∧ ∃ c' e,
      run 7 Scenario.first Scenario.others (fn Scenario.A)
        (replicate
           (if is_resolved
                 (vcl_fun_ptr (shared (start (EntryPoint := Scenario.impl) 2)))
            then 2 else 4) 0)
        (start 2)
      = Some c'
      ∧ pool c' = pool (start 2)
      ∧ select 7 Scenario.first Scenario.others = fn e
      ∧ last (trace (shared c'))
        = Some (if is_resolved
                     (vcl_fun_ptr (shared (start (EntryPoint := Scenario.impl) 2)))
                then Invoke e else Forward Scenario.A)
      ∧ vcl_fun_ptr (shared c') = resolved (fn e).
Proof.
  split; [reflexivity|]. split; [reflexivity|]. split; [reflexivity|].
  apply (call_completes_in_own_steps 7 Scenario.first Scenario.others
           (fn Scenario.A) 2 [] (start 2) 0 Scenario.A);
    reflexivity.
Defined.
